(** * Runway type/value algebra: a shallow embedding

    The development follows two modules of the repository:

    - the loader module (classes [Value], [RangeValue], [RecordValue],
      [ArrayValue], [Type] with its static [make], [RangeType],
      [RecordType], [ArrayType]);
    - [types/either.js] (classes [EitherValue], [EitherTag],
      [EitherVariant], [EitherType]).  Its constructors take the [makeType]
      of [factory.js], a file that is not among the sources, as a
      parameter.  The loader module still carries an older [EitherValue]
      and [EitherType], without tags, which its own [Type.make] constructs;
      these two classes are not embedded, and the branch of [make] for the
      kind [either] is marked as modelled from the specification.

    JavaScript objects that are never mutated after their constructor has
    returned (types, variants, tags) are embedded as trees that carry an
    object identity [oid]; reference equality ([==] on objects) is equality
    of identities.  Objects that are mutated in place (values) live in a
    heap and are referred to by location.  Exceptions are results that keep
    the state reached when the exception was thrown.  Numbers are the
    integers, as far as JavaScript numbers represent them exactly; sums and
    texts of numbers are the engine's for the safe integers (below [2^53] in
    absolute value), which is what the hypothesis [safe] of a theorem is
    for.

    The file has three parts: the code, the notions that the claims are
    stated with, and the proofs. *)

From Stdlib Require Import ZArith Lia.
From stdpp Require Import gmap strings list fin_maps pretty.

Set Warnings "-register-all".

Open Scope string_scope.
Open Scope list_scope.
Open Scope Z_scope.

(** * Part I: the code *)

(** ** Exceptions and the state monad *)

(** What a [throw] of the two modules, or the engine itself, raises.  The
    constructors are named after the error kinds of the specification; each
    one stands for exactly one [throw] site. *)
Inductive JSError : Type :=
| OutOfRange (newValue : Z) (name : option string) (low high : Z)
    (* RangeValue.assign: Error(`Cannot assign value of ... to range ...`) *)
| UnknownType (value : string)
    (* Type.make, alias branch: Error(`Unknown type ${decl.value}`) *)
| UnknownGeneric (base : string)
    (* Type.make, generic branch: Error(`Unknown type '${decl.base.value}'`) *)
| UnknownDeclarationKind (kind : string)
    (* Type.make, fall through: Error(`Unknown type '${name}': ...`) *)
| TypeMismatch (name : option string)
    (* EitherValue.assign: errors.Internal(`Cannot assign value of ...`) *)
| TypeError
    (* raised by the engine: a property read on undefined, a call of a
       property that is not a function *)
| ReferenceError (ident : string).
    (* raised by the engine: an identifier that is not declared *)

Inductive Result (A : Type) : Type :=
| Ok (a : A)
| Throw (e : JSError).

Arguments Ok {A} a.

Arguments Throw {A} e.

(** A computation over a mutable state [S]: the state that is returned is the
    one reached at the [return] or at the [throw]. *)
Definition M (S A : Type) : Type := S -> Result A * S.

Definition ret {S A} (a : A) : M S A := fun s => (Ok a, s).

Definition throw {S A} (e : JSError) : M S A := fun s => (Throw e, s).

Definition bind {S A B} (m : M S A) (k : A -> M S B) : M S B :=
  fun s =>
    match m s with
    | (Ok a, s') => k a s'
    | (Throw e, s') => (Throw e, s')
    end.

Notation "x <- m ;; k" := (bind m (fun x => k))
  (at level 200, m at level 99, k at level 200, only parsing).

Notation "m ;;; k" := (bind m (fun _ => k))
  (at level 200, k at level 200, only parsing).

Section MonadicLoops.
Context {S A B : Type}.
Variable f : A -> M S B.

(** [xs.map(f)] for an [f] with effects: left to right, stopping at the
    first exception. *)
Fixpoint mapM (xs : list A) : M S (list B) :=
  match xs with
  | [] => ret []
  | x :: rest =>
      y <- f x ;;
      ys <- mapM rest ;;
      ret (y :: ys)
  end.

(** [Array.from({length: n}, () => f())] *)
Fixpoint replicateM (n : nat) (m : M S B) : M S (list B) :=
  match n with
  | O => ret []
  | Datatypes.S n' =>
      y <- m ;;
      ys <- replicateM n' m ;;
      ret (y :: ys)
  end.
End MonadicLoops.

Section ForEach.
Context {S A : Type}.
Variable f : A -> M S unit.

(** [xs.forEach(f)] *)
Fixpoint forEachM (xs : list A) : M S unit :=
  match xs with
  | [] => ret tt
  | x :: rest => f x ;;; forEachM rest
  end.
End ForEach.

(** ** Declarations (the parser's nodes, read only) *)

(** A node of the parsed tree, by its [kind].  A field of an [either]
    declaration is an [enumvariant] node ([None]) or a node with a nested
    [type] ([Some]). *)
Inductive Decl : Type :=
| DRange (low high : Z)
| DRecord (fields : list (string * Decl))
| DEither (fields : list (string * option Decl))
| DAlias (value : string)
| DGeneric (base : string) (args : list Decl) (indexBy : Decl)
| DUnknown (kind : string).

(** ** Types *)

(** [class EitherTag]: [type] is the variant that owns the tag, and
    [type.parenttype] the either-type of that variant; both are fixed by the
    constructors, so the tag carries their identities. *)
Record EitherTag : Type := mkTag {
  tag_oid : nat;
  tag_type : nat;
  tag_parenttype : nat;
  tag_name : string;
}.

(** [class EitherVariant], over the type of its [recordtype]. *)
Record EitherVariantOf (T : Type) : Type := mkVariant {
  v_oid : nat;
  v_name : string;
  v_parenttype : nat;
  v_tag : EitherTag;
  v_recordtype : option T;
}.

Arguments mkVariant {T}.

Arguments v_oid {T}.

Arguments v_name {T}.

Arguments v_parenttype {T}.

Arguments v_tag {T}.

Arguments v_recordtype {T}.

(** [class Type] and its subclasses.  The slots [decl] (kept for rendering)
    and [env] (the constructor's [env] argument, read by constructors only)
    are not part of the tree. *)
Inductive Ty : Type :=
| RangeType (oid : nat) (name : option string) (low high : Z)
| RecordType (oid : nat) (name : option string) (fieldtypes : list (string * Ty))
| EitherType (oid : nat) (name : option string) (fieldtypes : list (EitherVariantOf Ty))
| ArrayType (oid : nat) (name : option string) (valuetype indextype : Ty).

Abbreviation EitherVariant := (EitherVariantOf Ty).

Definition type_oid (t : Ty) : nat :=
  match t with
  | RangeType oid _ _ _ | RecordType oid _ _ | EitherType oid _ _
  | ArrayType oid _ _ _ => oid
  end.

(** [Type.getName] *)
Definition getName (t : Ty) : option string :=
  match t with
  | RangeType _ name _ _ | RecordType _ name _ | EitherType _ name _
  | ArrayType _ name _ _ => name
  end.

(** ** Environment *)

(** What a variable is bound to and what a method receives: a tag (an
    object that is never mutated), a reference to a value of the heap, or a
    primitive. *)
Inductive JSValue : Type :=
| JTag (g : EitherTag)
| JRef (l : nat)
| JNumber (z : Z)
| JString (s : string)
| JUndefined.

(** Modelled from the spec: [environment.js] is not part of the sources at
    hand.  An environment is a mapping from names to types, a mapping from
    names to values and an optional parent; [assignType] and [assignVar]
    install in the local scope only and overwrite; [getType] and [getVar]
    check the local scope, then the parent chain, and a miss at the root is
    "not found" ([undefined]). *)
Inductive Environment : Type :=
| mkEnv (types : gmap string Ty) (vars : gmap string JSValue)
        (parent : option Environment).

Definition env_types (e : Environment) : gmap string Ty :=
  match e with mkEnv ts _ _ => ts end.

Definition env_vars (e : Environment) : gmap string JSValue :=
  match e with mkEnv _ vs _ => vs end.

Definition env_parent (e : Environment) : option Environment :=
  match e with mkEnv _ _ p => p end.

Definition assignType (id : string) (t : Ty) (e : Environment) : Environment :=
  match e with mkEnv ts vs p => mkEnv (<[id := t]> ts) vs p end.

Definition assignVar (id : string) (v : JSValue) (e : Environment) : Environment :=
  match e with mkEnv ts vs p => mkEnv ts (<[id := v]> vs) p end.

Fixpoint getType (e : Environment) (id : string) : option Ty :=
  match e with
  | mkEnv ts _ p =>
      match ts !! id with
      | Some t => Some t
      | None => match p with Some e' => getType e' id | None => None end
      end
  end.

Fixpoint getVar (e : Environment) (id : string) : option JSValue :=
  match e with
  | mkEnv _ vs p =>
      match vs !! id with
      | Some v => Some v
      | None => match p with Some e' => getVar e' id | None => None end
      end
  end.

(** ** Type.make *)

(** The state of a construction: the environment object passed as [env]
    (every nested constructor receives [this.env], the same object) and the
    next unused object identity. *)
Record World : Type := mkWorld {
  env : Environment;
  next : nat;
}.

(** [new C(...)]: the object comes into being with a fresh identity. *)
Definition fresh : M World nat :=
  fun w => (Ok (next w), mkWorld (env w) (Datatypes.S (next w))).

Definition env_assignVar (id : string) (v : JSValue) : M World unit :=
  fun w => (Ok tt, mkWorld (assignVar id v (env w)) (next w)).

Definition env_getType (id : string) : M World (option Ty) :=
  fun w => (Ok (getType (env w) id), w).

(** [new EitherVariant(decl, env, name, parenttype)], with the [makeType] it
    obtains from [require('./factory.js')]. *)
Definition EitherVariant_new (makeType : Decl -> option string -> M World Ty)
    (decl : string * option Decl) (name : string) (parenttype : nat)
  : M World EitherVariant :=
  oid <- fresh ;;
  toid <- fresh ;;
  let tag := mkTag toid oid parenttype name in
  match decl.2 with
  | None =>
      env_assignVar name (JTag tag) ;;;
      ret (mkVariant oid name parenttype tag None)
  | Some type =>
      recordtype <- makeType type None ;;
      ret (mkVariant oid name parenttype tag (Some recordtype))
  end.

(** [new EitherType(decl, env, name)] of [types/either.js]: one
    [EitherVariant] per field, each with the same [env] and with the new
    type as its [parenttype]. *)
Definition EitherType_new (makeType : Decl -> option string -> M World Ty)
    (fields : list (string * option Decl)) (name : option string) : M World Ty :=
  oid <- fresh ;;
  fieldtypes <- mapM (fun field : string * option Decl =>
                        EitherVariant_new makeType field field.1 oid) fields ;;
  ret (EitherType oid name fieldtypes).

(** The callback of [this.decl.fields.map(...)] in [new EitherType], by
    name. *)
Definition new_variant (makeType : Decl -> option string -> M World Ty)
    (parenttype : nat) (field : string * option Decl) : M World EitherVariant :=
  EitherVariant_new makeType field field.1 parenttype.

(** [Type.make(decl, env, name)] of the loader module; [env] is the
    environment of the state.

    Modelled from the spec: the branch of the kind [either].  There the
    loader module constructs its own, older [EitherType] (lines 189-196: a
    list of names and types, no variant, no tag, nothing assigned in the
    environment, and a TypeError on a field that is an [enumvariant]), which
    is not embedded.  The branch follows section 4.1 of the specification
    instead ("constructs one EitherVariant per field"): it constructs the
    [EitherType] of [types/either.js], with the dispatch itself as the
    [makeType] that [types/either.js] requires from [factory.js], a file
    that is not among the sources.  On a declaration that reaches no
    [either] the definition is the loader module's [Type.make]; the
    theorems about [new EitherType] are stated for every [makeType]. *)
Fixpoint make (decl : Decl) (name : option string) {struct decl} : M World Ty :=
  match decl with
  | DRange low high =>
      oid <- fresh ;;
      ret (RangeType oid name low high)
  | DRecord fields =>
      oid <- fresh ;;
      fieldtypes <- mapM (fun field : string * Decl =>
                            type <- make field.2 None ;;
                            ret (field.1, type)) fields ;;
      ret (RecordType oid name fieldtypes)
  | DEither fields => EitherType_new make fields name
  | DAlias value =>
      t <- env_getType value ;;
      match t with
      | None => throw (UnknownType value)
      | Some t => ret t
      end
  | DGeneric base args indexBy =>
      if decide (base = "Array") then
        oid <- fresh ;;
        valuetype <- match args with
                     | arg :: _ => make arg None
                     | [] => throw TypeError
                     end ;;
        indextype <- make indexBy None ;;
        ret (ArrayType oid name valuetype indextype)
      else throw (UnknownGeneric base)
  | DUnknown kind => throw (UnknownDeclarationKind kind)
  end.

(** The callbacks of [this.decl.fields.map(...)] in [new RecordType] and in
    [new EitherType], by name. *)
Definition make_field (field : string * Decl) : M World (string * Ty) :=
  bind (make field.2 None) (fun type => ret (field.1, type)).

Definition make_variant (parenttype : nat) (field : string * option Decl)
  : M World EitherVariant :=
  EitherVariant_new make field field.1 parenttype.

(** ** Values *)

(** The instances of [Value] that are mutated in place.  The properties that
    a constructor or [assign] adds under a computed name ([this[name]]) are
    the map [props], kept apart from the fixed slots ([type], [tag],
    [value], [items]) and from what the prototypes provide.  The embedding
    is the object of the code as long as no field and no variant is named
    like one of these ([reserved], below): in the code, [this[name] = ...]
    for such a name overwrites the slot or hides the method, and [name in
    this] holds of it.  This is what the hypothesis [plain] of a theorem is
    for. *)
Inductive Obj : Type :=
| RangeValue (type : Ty) (value : Z)
| RecordValue (type : Ty) (props : gmap string nat)
| EitherValue (type : Ty) (tag : EitherTag) (props : gmap string nat)
| ArrayValue (type : Ty) (items : list nat).

Abbreviation Heap := (list Obj).

(** [type.low] and [type.high]: [undefined] on a type that is not a range. *)
Definition type_low (t : Ty) : option Z :=
  match t with RangeType _ _ low _ => Some low | _ => None end.

Definition type_high (t : Ty) : option Z :=
  match t with RangeType _ _ _ high => Some high | _ => None end.

(** [super(type)] followed by the slots the constructor sets at once. *)
Definition alloc (o : Obj) : M Heap nat :=
  fun h => (Ok (List.length h), h ++ [o]).

(** [this[name] = child], for a [name] apart from [reserved] *)
Definition set_prop (this : nat) (name : string) (child : nat) : M Heap unit :=
  fun h =>
    match h !! this with
    | Some (RecordValue type props) =>
        (Ok tt, <[this := RecordValue type (<[name := child]> props)]> h)
    | Some (EitherValue type tag props) =>
        (Ok tt, <[this := EitherValue type tag (<[name := child]> props)]> h)
    | _ => (Throw TypeError, h)
    end.

(** [delete this[name]], for a [name] apart from [reserved] *)
Definition delete_prop (this : nat) (name : string) : M Heap unit :=
  fun h =>
    match h !! this with
    | Some (RecordValue type props) =>
        (Ok tt, <[this := RecordValue type (delete name props)]> h)
    | Some (EitherValue type tag props) =>
        (Ok tt, <[this := EitherValue type tag (delete name props)]> h)
    | _ => (Throw TypeError, h)
    end.

(** [this.tag = tag] *)
Definition set_tag (this : nat) (tag : EitherTag) : M Heap unit :=
  fun h =>
    match h !! this with
    | Some (EitherValue type _ props) =>
        (Ok tt, <[this := EitherValue type tag props]> h)
    | _ => (Throw TypeError, h)
    end.

(** [this.items = items] *)
Definition set_items (this : nat) (items : list nat) : M Heap unit :=
  fun h =>
    match h !! this with
    | Some (ArrayValue type _) => (Ok tt, <[this := ArrayValue type items]> h)
    | _ => (Throw TypeError, h)
    end.

(** [this[name]] for a [name] apart from [reserved]: [undefined] when no
    property was added under that name. *)
Definition get_prop (h : Heap) (this : nat) (name : string) : option nat :=
  match h !! this with
  | Some (RecordValue _ props) | Some (EitherValue _ _ props) => props !! name
  | _ => None
  end.

(** [this.items[i]] *)
Definition get_item (h : Heap) (this : nat) (i : nat) : option nat :=
  match h !! this with
  | Some (ArrayValue _ items) => items !! i
  | _ => None
  end.

(** The [length] that [new ArrayValue] computes,
    [type.indextype.high - type.indextype.low + 1], as [Array.from] reads it:
    a negative number and [NaN] (a bound that is [undefined]) are length 0.
    This is the number of elements that [Array.from] creates for a length
    below [2^32]; from [2^32] on it raises a RangeError instead, which is
    not embedded.  This is what the hypothesis [allocatable] of a theorem
    is for.  Memory is taken to suffice. *)
Definition array_length (indextype : Ty) : nat :=
  match type_low indextype, type_high indextype with
  | Some low, Some high => Z.to_nat (high - low + 1)
  | _, _ => O
  end.

(** [type.makeDefaultValue()], that is [new RangeValue(type)],
    [new RecordValue(type)], [new EitherValue(type)] or
    [new ArrayValue(type)]; the result is the location of the new object. *)
Fixpoint makeDefaultValue (type : Ty) {struct type} : M Heap nat :=
  match type with
  | RangeType _ _ low _ =>
      alloc (RangeValue type low)
  | RecordType _ _ fieldtypes =>
      this <- alloc (RecordValue type ∅) ;;
      forEachM (fun fieldtype : string * Ty =>
                  child <- makeDefaultValue fieldtype.2 ;;
                  set_prop this fieldtype.1 child) fieldtypes ;;;
      ret this
  | EitherType _ _ fieldtypes =>
      match fieldtypes with
      | [] => throw TypeError
      | first :: _ =>
          this <- alloc (EitherValue type (v_tag first) ∅) ;;
          match v_recordtype first with
          | Some recordtype =>
              child <- makeDefaultValue recordtype ;;
              set_prop this (tag_name (v_tag first)) child
          | None => ret tt
          end ;;;
          ret this
      end
  | ArrayType _ _ valuetype indextype =>
      this <- alloc (ArrayValue type []) ;;
      items <- replicateM (array_length indextype) (makeDefaultValue valuetype) ;;
      set_items this items ;;;
      ret this
  end.

(** [a < b] and [a > b] for a number [a] and a bound [b] that may be
    [undefined]: a comparison with [undefined] is false. *)
Definition js_lt (a : Z) (b : option Z) : bool :=
  match b with Some b => a <? b | None => false end.

Definition js_gt (a : Z) (b : option Z) : bool :=
  match b with Some b => a >? b | None => false end.

(** [RangeValue.assign(newValue)] *)
Definition RangeValue_assign (this : nat) (newValue : Z) : M Heap unit :=
  fun h =>
    match h !! this with
    | Some (RangeValue type value) =>
        if js_lt newValue (type_low type) || js_gt newValue (type_high type)
        then (Throw (OutOfRange newValue (getName type)
                       (default 0 (type_low type)) (default 0 (type_high type))), h)
        else (Ok tt, <[this := RangeValue type newValue]> h)
    | _ => (Throw TypeError, h)
    end.

(** The body of the loop of [new RecordValue]. *)
Definition init_field (this : nat) (fieldtype : string * Ty) : M Heap unit :=
  bind (makeDefaultValue fieldtype.2) (fun child => set_prop this fieldtype.1 child).

(** [this.items[i]] for an integer [i]; a negative index is no element. *)
Definition get_item_at (h : Heap) (this : nat) (i : Z) : option nat :=
  if decide (i < 0) then None else get_item h this (Z.to_nat i).

(** ** EitherValue (types/either.js) *)

Definition read (l : nat) : M Heap (option Obj) :=
  fun h => (Ok (h !! l), h).

(** [name in v ? v[name] : undefined], on the heap as it is at the read. *)
Definition read_prop (l : nat) (name : string) : M Heap (option nat) :=
  fun h => (Ok (get_prop h l name), h).

(** [EitherValue.assign(newValue)].  [this.type == newValue.type] and
    [newValue.type.parenttype == this.tag.type.parenttype] compare object
    references. *)
Definition EitherValue_assign (this : nat) (newValue : JSValue) : M Heap unit :=
  self <- read this ;;
  match self with
  | Some (EitherValue type tag _) =>
      other <- match newValue with JRef l => read l | _ => ret None end ;;
      match newValue, other with
      | JRef l, Some (EitherValue type' tag' _) =>
          if decide (type_oid type = type_oid type') then
            delete_prop this (tag_name tag) ;;;
            set_tag this tag' ;;;
            nested <- read_prop l (tag_name tag') ;;
            match nested with
            | Some child => set_prop this (tag_name tag') child
            | None => ret tt
            end
          else throw (TypeMismatch (getName type))
      | JTag g, _ =>
          if decide (tag_parenttype g = tag_parenttype tag) then
            delete_prop this (tag_name tag) ;;;
            set_tag this g
          else throw (TypeMismatch (getName type))
      | _, _ => throw (TypeMismatch (getName type))
      end
  | _ => throw TypeError
  end.

(** [EitherValue.equals(other)].  The argument of the nested [equals] reads
    the identifier [othe], which no scope declares: evaluating it raises a
    ReferenceError before the nested [equals] is called.  [this.tag.name in
    this] is the test on [props], for a tag name apart from [reserved]. *)
Definition EitherValue_equals (this : nat) (other : JSValue) : M Heap bool :=
  self <- read this ;;
  match self with
  | Some (EitherValue type tag props) =>
      match other with
      | JUndefined => throw TypeError
      | JNumber _ | JString _ => ret false
      | JTag g => ret false
      | JRef l =>
          o <- read l ;;
          match o with
          | Some (EitherValue type' tag' _) =>
              if negb (type_oid type =? type_oid type')%nat then ret false
              else if negb (tag_oid tag =? tag_oid tag')%nat then ret false
              else match props !! tag_name tag with
                   | Some _ => throw (ReferenceError "othe")
                   | None => ret true
                   end
          | Some _ => ret false
          | None => throw TypeError
          end
      end
  | _ => throw TypeError
  end.

(** ** The methods of the value classes *)

Inductive Class : Type :=
| CRangeValue | CRecordValue | CEitherValue | CArrayValue.

Definition class_of (o : Obj) : Class :=
  match o with
  | RangeValue _ _ => CRangeValue
  | RecordValue _ _ => CRecordValue
  | EitherValue _ _ _ => CEitherValue
  | ArrayValue _ _ => CArrayValue
  end.

(** The methods that each class body declares ([Value] declares none). *)
Definition methods (c : Class) : list string :=
  match c with
  | CRangeValue => ["assign"; "innerToString"; "toString"]
  | CRecordValue => ["innerToString"; "toString"]
  | CEitherValue => ["assign"; "equals"; "innerToString"; "toString"]
  | CArrayValue => ["toString"]
  end.

(** The methods that [Object.prototype] adds to every object. *)
Definition object_prototype : list string :=
  ["constructor"; "hasOwnProperty"; "isPrototypeOf"; "propertyIsEnumerable";
   "toLocaleString"; "toString"; "valueOf";
   "__defineGetter__"; "__defineSetter__"; "__lookupGetter__"; "__lookupSetter__"].

(** [typeof v[m] == 'function'] for an instance [v] of [c] to which no
    property named [m] was added. *)
Definition responds_to (c : Class) (m : string) : bool :=
  bool_decide (m ∈ methods c ++ object_prototype).

(** The slots that the constructors set. *)
Definition slots (c : Class) : list string :=
  match c with
  | CRangeValue => ["type"; "value"]
  | CRecordValue => ["type"]
  | CEitherValue => ["type"; "tag"]
  | CArrayValue => ["type"; "items"]
  end.

(** The names for which [name in v] holds of an instance [v] of [c] before
    any property is added under a computed name: its slots, the methods of
    its class, and what [Object.prototype] provides, the accessor
    [__proto__] included. *)
Definition inherent (c : Class) : list string :=
  slots c ++ methods c ++ object_prototype ++ ["__proto__"].

(** The names that are [inherent] to some class of values. *)
Definition reserved : list string :=
  flat_map inherent [CRangeValue; CRecordValue; CEitherValue; CArrayValue].

(** ** EitherTag, EitherType and EitherVariant: the remaining methods *)

(** [EitherTag.equals(other)] for an [other] that is a tag:
    [this.type == other.type] compares the references of the two variants,
    [this.name == other.name] the two strings. *)
Definition EitherTag_equals (this other : EitherTag) : bool :=
  (tag_type this =? tag_type other)%nat
  && bool_decide (tag_name this = tag_name other).

(** [EitherTag.toString()] and [EitherTag.innerToString()] *)
Definition EitherTag_toString (this : EitherTag) : string := tag_name this.

(** [EitherType.toString()] *)
Definition EitherType_toString (this : Ty) : string :=
  match getName this with
  | Some name => name
  | None => "anonymous either"
  end.

(** [EitherVariant.toString()] *)
Definition EitherVariant_toString (this : EitherVariant) : string :=
  EitherTag_toString (v_tag this) +:+ " (EitherVariant)".

(** ** Rendering: toString and innerToString *)

(** [xs.join(sep)] *)
Definition join (sep : string) (xs : list string) : string :=
  match xs with
  | [] => ""
  | x :: rest => foldl (fun acc y => acc +:+ sep +:+ y) x rest
  end.

(** The results of the calls of a [map], in order: the first call that does
    not return decides.  [None] is a call that ran out of fuel. *)
Fixpoint collect (rs : list (option (Result string))) : option (Result (list string)) :=
  match rs with
  | [] => Some (Ok [])
  | None :: _ => None
  | Some (Throw e) :: _ => Some (Throw e)
  | Some (Ok s) :: rest =>
      match collect rest with
      | Some (Ok ss) => Some (Ok (s :: ss))
      | other => other
      end
  end.

(** The label of position [i] of an array, [`${this.type.indextype.low + i}`];
    [undefined + i] is [NaN].  The sum and its text are the engine's when
    [low + i] is a safe integer. *)
Definition slot_label (indextype : Ty) (i : nat) : string :=
  match type_low indextype with
  | Some low => pretty (low + Z.of_nat i)
  | None => "NaN"
  end.

(** [this.toString()] ([inner = false]) and [this.innerToString()]
    ([inner = true]) on the object at [this], for the classes [RangeValue],
    [RecordValue], [ArrayValue] of the loader module and [EitherValue] of
    [types/either.js].  The calls of the methods of the children are bounded
    by [fuel]; [None] is a run that needs more.  [RecordValue] reads the
    field names off [type.decl.fields], the list from which the constructor
    of its type built [type.fieldtypes], name by name; [ArrayValue] has no
    [innerToString], and calling it is a TypeError.  The text of a number is
    its decimal numeral, which is the engine's text for a safe integer; the
    names of fields and variants are taken apart from [reserved]. *)
Fixpoint render (fuel : nat) (h : Heap) (inner : bool) (this : nat) {struct fuel}
  : option (Result string) :=
  match fuel with
  | O => None
  | S fuel' =>
      match h !! this with
      | None => Some (Throw TypeError)
      | Some (RangeValue type value) =>
          if inner then Some (Ok (pretty value))
          else
            match getName type with
            | None => Some (Ok (pretty value))
            | Some name => Some (Ok (name +:+ "(" +:+ pretty value +:+ ")"))
            end
      | Some (RecordValue type props) =>
          match type with
          | RecordType _ name fieldtypes =>
              match collect
                      (map (fun v : string =>
                              match props !! v with
                              | None => Some (Throw TypeError)
                              | Some child =>
                                  match render fuel' h false child with
                                  | Some (Ok rhs) => Some (Ok (v +:+ ": " +:+ rhs))
                                  | other => other
                                  end
                              end) fieldtypes.*1) with
              | Some (Ok fields) =>
                  if inner then Some (Ok (join ", " fields))
                  else Some (Ok (default "undefined" name
                                 +:+ " { " +:+ join ", " fields +:+ " }"))
              | Some (Throw e) => Some (Throw e)
              | None => None
              end
          | _ => Some (Throw TypeError)
          end
      | Some (EitherValue type tag props) =>
          match props !! tag_name tag with
          | Some child =>
              if inner then render fuel' h false child
              else
                match render fuel' h true child with
                | Some (Ok fields) =>
                    Some (Ok (EitherTag_toString tag +:+ " { " +:+ fields +:+ " }"))
                | other => other
                end
          | None => Some (Ok (EitherTag_toString tag))
          end
      | Some (ArrayValue type items) =>
          if inner then Some (Throw TypeError)
          else
            match type with
            | ArrayType _ _ _ indextype =>
                match collect
                        (imap (fun (i : nat) (v : nat) =>
                                 match render fuel' h false v with
                                 | Some (Ok s) =>
                                     Some (Ok (slot_label indextype i +:+ ": " +:+ s))
                                 | other => other
                                 end) items) with
                | Some (Ok slots) => Some (Ok ("[" +:+ join ", " slots +:+ "]"))
                | Some (Throw e) => Some (Throw e)
                | None => None
                end
            | _ => Some (Throw TypeError)
            end
      end
  end.

(** ** Code.format *)

(** A node of the body of a rule, by its [kind]; the fields are the ones
    that [Code.format] reads, those it interpolates as they are being
    strings (a number for the kind [number]).  [AOther] is a node of any
    other kind, the declarations of types other than aliases among them. *)
Inductive Ast : Type :=
| ASequence (statements : list Ast)
| AIfElse (condition thenblock elseblock : Ast)
| AMatches (expr variant : Ast)
| AAssign (id expr : Ast)
| ARecordValue (type : string) (fields : list (string * Ast))
| ALookup (parent child : Ast)
| AIndex (parent by_ : Ast)
| AId (value : string)
| AAlias (value : string)
| ANumber (value : Z)
| AApply (func : string) (args : list Ast)
| AVarDecl (id : string) (type : Ast) (default : option Ast)
| AOther (kind : string).

(** The line feed in the template of [ifelse] and between the statements of
    a sequence. *)
Definition newline : string :=
  String (Ascii.Ascii false true false true false false false false) EmptyString.

(** The writer of [Code.format]: the text returned, after the nodes that
    [out] dumped on the console, in the order of the dumps. *)
Definition W (A : Type) : Type := list Ast * A.

Definition wret {A} (a : A) : W A := ([], a).

Definition wbind {A B} (m : W A) (k : A -> W B) : W B :=
  let '(dumps1, a) := m in
  let '(dumps2, b) := k a in
  (dumps1 ++ dumps2, b).

Section WMap.
Context {A B : Type}.
Variable f : A -> W B.

(** [xs.map(f)] for an [f] that writes *)
Fixpoint wmap (xs : list A) : W (list B) :=
  match xs with
  | [] => wret []
  | x :: rest => wbind (f x) (fun y => wbind (wmap rest) (fun ys => wret (y :: ys)))
  end.
End WMap.

(** [Code.format(ast)] *)
Fixpoint format (ast : Ast) {struct ast} : W string :=
  match ast with
  | ASequence statements =>
      wbind (wmap format statements) (fun lines => wret (join newline lines))
  | AIfElse condition thenblock elseblock =>
      wbind (format condition) (fun c =>
      wbind (format thenblock) (fun t =>
      wbind (format elseblock) (fun e =>
      wret ("if " +:+ c +:+ " {" +:+ newline +:+ "  " +:+ t +:+ newline
            +:+ "} else {" +:+ newline +:+ "  " +:+ e +:+ newline +:+ "}"))))
  | AMatches expr variant =>
      wbind (format expr) (fun e =>
      wbind (format variant) (fun v =>
      wret (e +:+ " matches " +:+ v)))
  | AAssign id expr =>
      wbind (format id) (fun i =>
      wbind (format expr) (fun e =>
      wret (i +:+ " = " +:+ e +:+ ";")))
  | ARecordValue type fields =>
      wbind (wmap (fun f : string * Ast =>
                     wbind (format f.2) (fun e => wret (f.1 +:+ ": " +:+ e))) fields)
        (fun inner => wret (type +:+ " { " +:+ join ", " inner +:+ " }"))
  | ALookup parent child =>
      wbind (format parent) (fun p =>
      wbind (format child) (fun c =>
      wret (p +:+ "." +:+ c)))
  | AIndex parent by_ =>
      wbind (format parent) (fun p =>
      wbind (format by_) (fun b =>
      wret (p +:+ "[" +:+ b +:+ "]")))
  | AId value => wret value
  | AAlias value => wret value
  | ANumber value => wret (pretty value)
  | AApply func args =>
      wbind (wmap format args) (fun args =>
      wret (func +:+ "(" +:+ join ", " args +:+ ")"))
  | AVarDecl id type default =>
      wbind (match default with
             | Some d => wbind (format d) (fun s => wret (" = " +:+ s))
             | None => wret ""
             end) (fun def =>
      wbind (format type) (fun t =>
      wret ("var " +:+ id +:+ " : " +:+ t +:+ def +:+ ";")))
  | AOther kind => ([ast], kind)
  end.

(** ** load *)

(** [Type.make] and the values that [load] builds are the ones above; on a
    declaration of the kind [either], [make] is modelled from the
    specification. *)

(** A top-level declaration, by its [kind].  The [default] of a [paramdecl]
    or [vardecl] is the number that [decl.default.value] reads off a number
    literal, where there is a default. *)
Inductive Statement : Type :=
| typedecl (id : string) (type : Decl)
| paramdecl (id : string) (type : Decl) (default : option Z)
| vardecl (id : string) (type : Decl) (default : option Z)
| rule (id : string) (code : Ast)
| rulefor (id : string) (code : Ast)
| otherdecl (kind : string).

(** [parser.parseFile(...)]: what [load] receives. *)
Record Parsed : Type := mkParsed {
  status : bool;
  value : list Statement;
}.

(** What ends a [load]: the two errors that [load] throws itself, or what a
    callee raised. *)
Inductive LoadError : Type :=
| ParseError
    (* Error(`Parse error: ...`) *)
| UnknownStatement (kind : string)
    (* Error(`unknown statement: ...`) *)
| Raised (e : JSError).

(** What [console.log] received: the dump of a node ([out]) or a line. *)
Inductive Event : Type :=
| Json (ast : Ast)
| Line (text : string).

(** The state of a [load]: the environment passed as [env] with the next
    unused identity, the heap of the values, and the console. *)
Record Session : Type := mkSession {
  world : World;
  heap : Heap;
  console : list Event;
}.

(** [value.assign(z)] as [load] calls it, on whatever class the value has:
    [RecordValue] and [ArrayValue] have no [assign], and calling it is a
    TypeError. *)
Definition Value_assign (this : nat) (z : Z) : M Heap unit :=
  fun h =>
    match h !! this with
    | Some (RangeValue _ _) => RangeValue_assign this z h
    | Some (EitherValue _ _ _) => EitherValue_assign this (JNumber z) h
    | _ => (Throw TypeError, h)
    end.

(** The body of the branches [paramdecl] and [vardecl]: the value bound to
    the variable. *)
Definition declare_value (type : Decl) (default : option Z) (required : bool)
    (s : Session) : Result nat * Session :=
  match make type None (world s) with
  | (Throw e, w) => (Throw e, mkSession w (heap s) (console s))
  | (Ok t, w) =>
      match makeDefaultValue t (heap s) with
      | (Throw e, h) => (Throw e, mkSession w h (console s))
      | (Ok value, h) =>
          match default with
          | None =>
              if required then (Throw TypeError, mkSession w h (console s))
              else (Ok value, mkSession w h (console s))
          | Some z =>
              match Value_assign value z h with
              | (Throw e, h') => (Throw e, mkSession w h' (console s))
              | (Ok _, h') => (Ok value, mkSession w h' (console s))
              end
          end
      end
  end.

(** [console.log(new Code(decl.code, env, decl.id.value).toString())] *)
Definition print_rule (code : Ast) (s : Session) : Session :=
  let '(dumps, text) := format code in
  mkSession (world s) (heap s) (console s ++ map Json dumps ++ [Line text]).

(** The callback of [parsed.value.forEach(...)] in [load]. *)
Definition load_decl (decl : Statement) (s : Session) : option LoadError * Session :=
  match decl with
  | typedecl id type =>
      match make type (Some id) (world s) with
      | (Throw e, w) => (Some (Raised e), mkSession w (heap s) (console s))
      | (Ok t, w) =>
          (None, mkSession (mkWorld (assignType id t (env w)) (next w))
                   (heap s) (console s))
      end
  | paramdecl id type default =>
      match declare_value type default true s with
      | (Throw e, s') => (Some (Raised e), s')
      | (Ok value, s') =>
          (None, mkSession (mkWorld (assignVar id (JRef value) (env (world s')))
                              (next (world s')))
                   (heap s') (console s'))
      end
  | vardecl id type default =>
      match declare_value type default false s with
      | (Throw e, s') => (Some (Raised e), s')
      | (Ok value, s') =>
          (None, mkSession (mkWorld (assignVar id (JRef value) (env (world s')))
                              (next (world s')))
                   (heap s') (console s'))
      end
  | rule id code => (None, print_rule code s)
  | rulefor id code => (None, print_rule code s)
  | otherdecl kind => (Some (UnknownStatement kind), s)
  end.

(** [parsed.value.forEach(...)]: the declarations in order, up to the first
    one that throws. *)
Fixpoint load_all (decls : list Statement) (s : Session) : option LoadError * Session :=
  match decls with
  | [] => (None, s)
  | decl :: rest =>
      match load_decl decl s with
      | (None, s') => load_all rest s'
      | failed => failed
      end
  end.

(** [load(parsed, env)] *)
Definition load (parsed : Parsed) (s : Session) : option LoadError * Session :=
  if status parsed then load_all (value parsed) s
  else (Some ParseError, s).

(** * Part II: the notions of the claims *)

(** ** Runs, scopes and footprints *)

Definition is_ok {A} (r : Result A) : bool :=
  match r with Ok _ => true | Throw _ => false end.

(** The run of [mapM] that returns: [f] returns on each element in turn,
    each call starting in the state left by the previous one. *)
Inductive mapM_run {S A B} (f : A -> M S B) : list A -> S -> list B -> S -> Prop :=
| mapM_run_nil s : mapM_run f [] s [] s
| mapM_run_cons x xs y ys s s1 s2 :
    f x s = (Ok y, s1) ->
    mapM_run f xs s1 ys s2 ->
    mapM_run f (x :: xs) s (y :: ys) s2.

(** Two states of a construction see the same scope: [getType] reads the
    type bindings and the parent chain only. *)
Definition same_scope (w w' : World) : Prop :=
  env_types (env w') = env_types (env w) ∧ env_parent (env w') = env_parent (env w).

(** A declaration all of whose kinds are known and all of whose aliases are
    bound in the chain of [e]. *)
Fixpoint resolvable (e : Environment) (decl : Decl) {struct decl} : bool :=
  match decl with
  | DRange _ _ => true
  | DRecord fields => forallb (fun field : string * Decl => resolvable e field.2) fields
  | DEither fields =>
      forallb (fun field : string * option Decl =>
                 match field.2 with
                 | None => true
                 | Some type => resolvable e type
                 end) fields
  | DAlias value => bool_decide (is_Some (getType e value))
  | DGeneric base args indexBy =>
      bool_decide (base = "Array")
      && match args with arg :: _ => resolvable e arg | [] => false end
      && resolvable e indexBy
  | DUnknown _ => false
  end.

(** The variable names that constructing a declaration assigns: the names
    of the enum variants of every either-declaration it reaches. *)
Fixpoint binders (decl : Decl) {struct decl} : list string :=
  match decl with
  | DRecord fields => flat_map (fun field : string * Decl => binders field.2) fields
  | DEither fields =>
      flat_map (fun field : string * option Decl =>
                  match field.2 with
                  | None => [field.1]
                  | Some type => binders type
                  end) fields
  | DGeneric base args indexBy =>
      match args with arg :: _ => binders arg | [] => [] end ++ binders indexBy
  | _ => []
  end.

Definition variant_binders (field : string * option Decl) : list string :=
  match field.2 with
  | None => [field.1]
  | Some type => binders type
  end.

(** The footprint of a construction that assigns at most the variables
    [names]: the scope that [getType] reads is untouched, identities are
    only ever added, every other variable keeps its binding. *)
Definition make_rel (names : list string) (w w' : World) : Prop :=
  same_scope w w'
  ∧ (next w <= next w')%nat
  ∧ forall id : string, id ∉ names -> env_vars (env w') !! id = env_vars (env w) !! id.

(** The variant that [new EitherVariant] returns for a field. *)
Definition variant_of (parenttype : nat) (field : string * option Decl)
    (v : EitherVariant) : Prop :=
  v_name v = field.1
  /\ v_parenttype v = parenttype
  /\ tag_name (v_tag v) = field.1
  /\ tag_type (v_tag v) = v_oid v
  /\ tag_parenttype (v_tag v) = parenttype
  /\ (field.2 = None <-> v_recordtype v = None).

(** The variable names that [new EitherVariant] assigns for a field, when
    [makeType] assigns at most the names [assigns type] for a declaration
    [type]: the name of an enum variant, and what [makeType] assigns for
    the nested type of another variant. *)
Definition variant_assigns (assigns : Decl -> list string)
    (field : string * option Decl) : list string :=
  match field.2 with
  | None => [field.1]
  | Some type => assigns type
  end.

(** What one [new EitherVariant] does to the state, from [w1] to [w2]: the
    variant and its tag take two identities; then an enum variant assigns
    its tag to its name in the local scope, and that is all; a variant with
    a nested type calls [makeType] on it, and the state that this call
    leaves is the state that the constructor leaves, so that the
    constructor itself assigns nothing. *)
Definition variant_effect (makeType : Decl -> option string -> M World Ty)
    (field : string * option Decl) (v : EitherVariant) (w1 w2 : World) : Prop :=
  match field.2 with
  | None =>
      w2 = mkWorld (assignVar field.1 (JTag (v_tag v)) (env w1)) (S (S (next w1)))
  | Some type =>
      exists recordtype,
        v_recordtype v = Some recordtype
        /\ makeType type None (mkWorld (env w1) (S (S (next w1)))) = (Ok recordtype, w2)
  end.

(** The types on which [makeDefaultValue] returns: it reads
    [fieldtypes[0].tag] of an either-type, which raises a TypeError when the
    type has no variant; an array of length 0 never calls the constructor of
    its elements. *)
Fixpoint defaultable (type : Ty) {struct type} : bool :=
  match type with
  | RangeType _ _ _ _ => true
  | RecordType _ _ fieldtypes =>
      forallb (fun fieldtype : string * Ty => defaultable fieldtype.2) fieldtypes
  | EitherType _ _ fieldtypes =>
      match fieldtypes with
      | [] => false
      | first :: _ =>
          match v_recordtype first with
          | Some recordtype => defaultable recordtype
          | None => true
          end
      end
  | ArrayType _ _ valuetype indextype =>
      match array_length indextype with
      | O => true
      | S _ => defaultable valuetype
      end
  end.

(** [default_at lo h type l]: the object at [l] is a default value of
    [type], and [l] and the locations of all its descendants are [lo] or
    above.

    - range: the value is [low];
    - record: the properties are the declared field names, and the property
      of a name holds a default of the type of the last field declared with
      that name;
    - either: the tag is the tag of the first variant, and there is a
      property, under the name of the tag, exactly when that variant has a
      [recordtype], holding a default of it;
    - array: [items] has [array_length indextype] elements, each a default
      of [valuetype]. *)
Inductive default_at (lo : nat) (h : Heap) : Ty -> nat -> Prop :=
| default_range oid name low high l :
    (lo <= l)%nat ->
    h !! l = Some (RangeValue (RangeType oid name low high) low) ->
    default_at lo h (RangeType oid name low high) l
| default_record oid name fieldtypes props l :
    (lo <= l)%nat ->
    h !! l = Some (RecordValue (RecordType oid name fieldtypes) props) ->
    (forall n : string, is_Some (props !! n) <-> n ∈ fieldtypes.*1) ->
    (forall (i : nat) n ft,
        fieldtypes !! i = Some (n, ft) ->
        n ∉ (drop (S i) fieldtypes).*1 ->
        exists c, props !! n = Some c /\ default_at lo h ft c) ->
    default_at lo h (RecordType oid name fieldtypes) l
| default_either_enum oid name first rest l :
    (lo <= l)%nat ->
    v_recordtype first = None ->
    h !! l = Some (EitherValue (EitherType oid name (first :: rest)) (v_tag first) ∅) ->
    default_at lo h (EitherType oid name (first :: rest)) l
| default_either_record oid name first rest recordtype c l :
    (lo <= l)%nat ->
    v_recordtype first = Some recordtype ->
    h !! l = Some (EitherValue (EitherType oid name (first :: rest)) (v_tag first)
                     {[ tag_name (v_tag first) := c ]}) ->
    default_at lo h recordtype c ->
    default_at lo h (EitherType oid name (first :: rest)) l
| default_array oid name valuetype indextype items l :
    (lo <= l)%nat ->
    h !! l = Some (ArrayValue (ArrayType oid name valuetype indextype) items) ->
    List.length items = array_length indextype ->
    Forall (default_at lo h valuetype) items ->
    default_at lo h (ArrayType oid name valuetype indextype) l.

(** Every object of [h] at [lo] or above is the same in [h']. *)
Definition preserves_from (lo : nat) (h h' : Heap) : Prop :=
  forall (k : nat) o, (lo <= k)%nat -> h !! k = Some o -> h' !! k = Some o.

(** Every object of [h] is the same in [h']. *)
Definition preserves (h h' : Heap) : Prop := preserves_from 0 h h'.

(** What [makeDefaultValue] does on a heap [h]: on a [defaultable] type it
    returns the location of a new object, the first unused one, which is a
    default value all of whose parts are new; otherwise it throws a
    TypeError.  In both cases the objects of [h] are as they were. *)
Definition makes_default (type : Ty) : Prop :=
  forall h,
    match makeDefaultValue type h with
    | (Ok l, h') =>
        defaultable type = true
        /\ l = List.length h
        /\ preserves h h'
        /\ default_at (List.length h) h' type l
    | (Throw e, h') =>
        defaultable type = false /\ e = TypeError /\ preserves h h'
    end.

(** A type none of whose field and variant names is [reserved]: on the
    values of such a type the embedding of objects is the code's. *)
Fixpoint plain (type : Ty) {struct type} : bool :=
  match type with
  | RangeType _ _ _ _ => true
  | RecordType _ _ fieldtypes =>
      forallb (fun fieldtype : string * Ty =>
                 bool_decide (fieldtype.1 ∉ reserved) && plain fieldtype.2) fieldtypes
  | EitherType _ _ fieldtypes =>
      forallb (fun v : EitherVariant =>
                 bool_decide (tag_name (v_tag v) ∉ reserved)
                 && match v_recordtype v with
                    | Some recordtype => plain recordtype
                    | None => true
                    end) fieldtypes
  | ArrayType _ _ valuetype indextype => plain valuetype && plain indextype
  end.

(** The number that [new ArrayValue] passes to [Array.from] as [length],
    [0] standing for [NaN]. *)
Definition wanted_length (indextype : Ty) : Z :=
  match type_low indextype, type_high indextype with
  | Some low, Some high => high - low + 1
  | _, _ => 0
  end.

(** A type all of whose arrays ask for fewer than [2^32] elements, the
    lengths for which [Array.from] creates an array. *)
Fixpoint allocatable (type : Ty) {struct type} : bool :=
  match type with
  | RangeType _ _ _ _ => true
  | RecordType _ _ fieldtypes =>
      forallb (fun fieldtype : string * Ty => allocatable fieldtype.2) fieldtypes
  | EitherType _ _ fieldtypes =>
      forallb (fun v : EitherVariant =>
                 match v_recordtype v with
                 | Some recordtype => allocatable recordtype
                 | None => true
                 end) fieldtypes
  | ArrayType _ _ valuetype indextype =>
      (wanted_length indextype <? 2 ^ 32) && allocatable valuetype && allocatable indextype
  end.

(** [Number.isSafeInteger(z)] *)
Definition safe_integer (z : Z) : bool :=
  (- (2 ^ 53 - 1) <=? z) && (z <=? 2 ^ 53 - 1).

(** A type all of whose bounds are safe integers: the values and the
    labels of its default values are printed digit by digit. *)
Fixpoint safe (type : Ty) {struct type} : bool :=
  match type with
  | RangeType _ _ low high => safe_integer low && safe_integer high
  | RecordType _ _ fieldtypes =>
      forallb (fun fieldtype : string * Ty => safe fieldtype.2) fieldtypes
  | EitherType _ _ fieldtypes =>
      forallb (fun v : EitherVariant =>
                 match v_recordtype v with
                 | Some recordtype => safe recordtype
                 | None => true
                 end) fieldtypes
  | ArrayType _ _ valuetype indextype => safe valuetype && safe indextype
  end.

(** A declaration that reaches no declaration of the kind [either]: on
    these, [make] is the [Type.make] of the loader module. *)
Fixpoint either_free (decl : Decl) {struct decl} : bool :=
  match decl with
  | DRange _ _ | DAlias _ | DUnknown _ => true
  | DRecord fields => forallb (fun field : string * Decl => either_free field.2) fields
  | DEither _ => false
  | DGeneric _ args indexBy =>
      match args with arg :: _ => either_free arg | [] => true end
      && either_free indexBy
  end.


(** ** Declarations, types and values of the examples *)

Definition env0 : Environment := mkEnv ∅ ∅ None.

Definition w0 : World := mkWorld env0 0.

(** The type that [Type.make] builds for a declaration in the empty
    environment, and the run of [makeDefaultValue] on that type in the empty
    heap. *)
Definition made (decl : Decl) : option Ty :=
  match make decl None w0 with
  | (Ok type, _) => Some type
  | (Throw _, _) => None
  end.

Definition default_of (decl : Decl) : option (Result nat * Heap) :=
  match made decl with
  | Some type => Some (makeDefaultValue type [])
  | None => None
  end.

(** [type T: either { A, B { x: 0..1 } }], as [new EitherType] builds it in
    the empty environment, with [make] as [makeType]. *)
Definition tagA : EitherTag := mkTag 2 1 0 "A".

Definition tagB : EitherTag := mkTag 4 3 0 "B".

Definition typeT : Ty :=
  EitherType 0 (Some "T")
    [mkVariant 1 "A" 0 tagA None;
     mkVariant 3 "B" 0 tagB (Some (RecordType 5 None [("x", RangeType 6 None 0 1)]))].

(** [type R: either { B { x: 0..1 } }] and two default values of it. *)
Definition tagR : EitherTag := mkTag 2 1 0 "B".

Definition typeR : Ty :=
  EitherType 0 (Some "R")
    [mkVariant 1 "B" 0 tagR (Some (RecordType 3 None [("x", RangeType 4 None 0 1)]))].

Definition two_defaults : Heap :=
  (bind (makeDefaultValue typeR) (fun _ => makeDefaultValue typeR) []).2.

(** ** Notions of the further properties *)

(** The errors that [Type.make] raises in an environment [e]: an alias that
    the chain of [e] does not bind, a generic whose base is not [Array], a
    declaration of unknown kind, or the TypeError of the engine. *)
Definition make_error (e : Environment) (err : JSError) : Prop :=
  match err with
  | UnknownType value => getType e value = None
  | UnknownGeneric base => base <> "Array"
  | UnknownDeclarationKind _ => True
  | TypeError => True
  | _ => False
  end.

(** From [e] to [e'] no variable is unbound, and a variable that is bound
    anew or again is bound to a tag that carries its name. *)
Definition binds_tags_only (e e' : Environment) : Prop :=
  (forall id : string, is_Some (env_vars e !! id) -> is_Some (env_vars e' !! id))
  /\ (forall (id : string) v,
         env_vars e' !! id = Some v ->
         env_vars e !! id = Some v \/ exists g, v = JTag g /\ tag_name g = id).

(** A caller that tries [assign(v)] for each [v] of a list in turn, going on
    after an attempt that throws: the heap that is left. *)
Definition attempts (this : nat) (vs : list Z) (h : Heap) : Heap :=
  foldl (fun h v => (RangeValue_assign this v h).2) h vs.

(** The type of the last field declared under a name, or what else is
    paired with it. *)
Fixpoint last_field {A} (n : string) (l : list (string * A)) : option A :=
  match l with
  | [] => None
  | f :: rest =>
      match last_field n rest with
      | Some b => Some b
      | None => if decide (f.1 = n) then Some f.2 else None
      end
  end.

(** The results of a list, or the first failure. *)
Fixpoint all_results (rs : list (Result string)) : Result (list string) :=
  match rs with
  | [] => Ok []
  | Throw e :: _ => Throw e
  | Ok s :: rest =>
      match all_results rest with
      | Ok ss => Ok (s :: ss)
      | Throw e => Throw e
      end
  end.

(** The nesting of a type: the number of calls of [toString] and
    [innerToString] below the one on a value of the type. *)
Fixpoint depth (type : Ty) {struct type} : nat :=
  match type with
  | RangeType _ _ _ _ => O
  | RecordType _ _ fieldtypes =>
      S (foldr Nat.max O (map (fun ft : string * Ty => depth ft.2) fieldtypes))
  | EitherType _ _ fieldtypes =>
      S (foldr Nat.max O
           (map (fun v : EitherVariant =>
                   match v_recordtype v with
                   | Some recordtype => depth recordtype
                   | None => O
                   end) fieldtypes))
  | ArrayType _ _ valuetype _ => S (depth valuetype)
  end.

(** The text of the default value of a type, read off the type:
    [toString()] for [inner = false], [innerToString()] for [inner = true].
    A record shows every declared field, in order, with the default of the
    last field declared under that name; an array shows its positions
    labelled from [low] upwards. *)
Fixpoint show_default (type : Ty) (inner : bool) {struct type} : Result string :=
  match type with
  | RangeType _ name low _ =>
      if inner then Ok (pretty low)
      else
        match name with
        | None => Ok (pretty low)
        | Some name => Ok (name +:+ "(" +:+ pretty low +:+ ")")
        end
  | RecordType _ name fieldtypes =>
      let shown := map (fun ft : string * Ty => (ft.1, show_default ft.2 false)) fieldtypes in
      match all_results
              (map (fun v : string =>
                      match last_field v shown with
                      | Some (Ok rhs) => Ok (v +:+ ": " +:+ rhs)
                      | Some (Throw e) => Throw e
                      | None => Throw TypeError
                      end) fieldtypes.*1) with
      | Ok fields =>
          if inner then Ok (join ", " fields)
          else Ok (default "undefined" name +:+ " { " +:+ join ", " fields +:+ " }")
      | Throw e => Throw e
      end
  | EitherType _ _ fieldtypes =>
      match fieldtypes with
      | [] => Throw TypeError
      | first :: _ =>
          match v_recordtype first with
          | None => Ok (tag_name (v_tag first))
          | Some recordtype =>
              if inner then show_default recordtype false
              else
                match show_default recordtype true with
                | Ok fields =>
                    Ok (tag_name (v_tag first) +:+ " { " +:+ fields +:+ " }")
                | Throw e => Throw e
                end
          end
      end
  | ArrayType _ _ valuetype indextype =>
      if inner then Throw TypeError
      else
        match array_length indextype with
        | O => Ok "[]"
        | S n =>
            match show_default valuetype false with
            | Ok s =>
                Ok ("[" +:+ join ", "
                              (map (fun i : nat => slot_label indextype i +:+ ": " +:+ s)
                                 (seq 0 (S n)))
                    +:+ "]")
            | Throw e => Throw e
            end
        end
  end.

(** A tree of nodes of the kinds that [Code.format] knows. *)
Fixpoint known (ast : Ast) {struct ast} : bool :=
  match ast with
  | ASequence statements => forallb known statements
  | AIfElse condition thenblock elseblock =>
      known condition && known thenblock && known elseblock
  | AMatches a b | AAssign a b | ALookup a b | AIndex a b => known a && known b
  | ARecordValue _ fields => forallb (fun f : string * Ast => known f.2) fields
  | AId _ | AAlias _ | ANumber _ => true
  | AApply _ args => forallb known args
  | AVarDecl _ type default =>
      known type && match default with Some d => known d | None => true end
  | AOther _ => false
  end.

Definition is_other (ast : Ast) : Prop := exists kind, ast = AOther kind.

(** What a [load] may do to a session, whether it returns or throws: the
    values that existed are as they were, the parent chain is the same, no
    type and no variable is unbound, identities are only added, and the
    console is only appended to. *)
Definition session_grows (s s' : Session) : Prop :=
  preserves (heap s) (heap s')
  /\ env_parent (env (world s')) = env_parent (env (world s))
  /\ (forall id : string, is_Some (env_types (env (world s)) !! id) ->
                          is_Some (env_types (env (world s')) !! id))
  /\ (forall id : string, is_Some (env_vars (env (world s)) !! id) ->
                          is_Some (env_vars (env (world s')) !! id))
  /\ (next (world s) <= next (world s'))%nat
  /\ exists out, console s' = console s ++ out.

(** Every variable of the local scope that refers to a value refers to an
    object of the heap. *)
Definition well_bound (s : Session) : Prop :=
  forall (id : string) (l : nat),
    env_vars (env (world s)) !! id = Some (JRef l) -> (l < List.length (heap s))%nat.

(** The type that a declaration declares or uses, when it has one. *)
Definition declared_type (decl : Statement) : option Decl :=
  match decl with
  | typedecl _ type | paramdecl _ type _ | vardecl _ type _ => Some type
  | _ => None
  end.

Definition session0 : Session := mkSession w0 [] [].

(** * Part III: proofs *)

(** ** Induction on declarations and on types *)

Section DeclInd.
Variable P : Decl -> Prop.
Hypothesis Hrange : forall low high, P (DRange low high).
Hypothesis Hrecord : forall fields,
    Forall (fun field : string * Decl => P field.2) fields -> P (DRecord fields).
Hypothesis Heither : forall fields,
    Forall (fun field : string * option Decl => from_option P True field.2) fields ->
    P (DEither fields).
Hypothesis Halias : forall value, P (DAlias value).
Hypothesis Hgeneric : forall base args indexBy,
    Forall P args -> P indexBy -> P (DGeneric base args indexBy).
Hypothesis Hunknown : forall kind, P (DUnknown kind).

Fixpoint Decl_nested_ind (decl : Decl) : P decl :=
  match decl with
  | DRange low high => Hrange low high
  | DRecord fields =>
      Hrecord fields
        ((fix go (fs : list (string * Decl)) : Forall (fun field => P field.2) fs :=
            match fs with
            | [] => List.Forall_nil _
            | f :: fs' => List.Forall_cons _ f fs' (Decl_nested_ind f.2) (go fs')
            end) fields)
  | DEither fields =>
      Heither fields
        ((fix go (fs : list (string * option Decl))
            : Forall (fun field => from_option P True field.2) fs :=
            match fs with
            | [] => List.Forall_nil _
            | f :: fs' =>
                List.Forall_cons _ f fs'
                  (match f.2 as o return from_option P True o with
                   | Some d => Decl_nested_ind d
                   | None => I
                   end) (go fs')
            end) fields)
  | DAlias value => Halias value
  | DGeneric base args indexBy =>
      Hgeneric base args indexBy
        ((fix go (ds : list Decl) : Forall P ds :=
            match ds with
            | [] => List.Forall_nil _
            | d :: ds' => List.Forall_cons _ d ds' (Decl_nested_ind d) (go ds')
            end) args)
        (Decl_nested_ind indexBy)
  | DUnknown kind => Hunknown kind
  end.
End DeclInd.

Section TyInd.
Variable P : Ty -> Prop.
Hypothesis Hrange : forall oid name low high, P (RangeType oid name low high).
Hypothesis Hrecord : forall oid name fieldtypes,
    Forall (fun ft : string * Ty => P ft.2) fieldtypes ->
    P (RecordType oid name fieldtypes).
Hypothesis Heither : forall oid name fieldtypes,
    Forall (fun v : EitherVariant => from_option P True (v_recordtype v)) fieldtypes ->
    P (EitherType oid name fieldtypes).
Hypothesis Harray : forall oid name valuetype indextype,
    P valuetype -> P indextype -> P (ArrayType oid name valuetype indextype).

Fixpoint Ty_nested_ind (type : Ty) : P type :=
  match type with
  | RangeType oid name low high => Hrange oid name low high
  | RecordType oid name fieldtypes =>
      Hrecord oid name fieldtypes
        ((fix go (fts : list (string * Ty)) : Forall (fun ft => P ft.2) fts :=
            match fts with
            | [] => List.Forall_nil _
            | ft :: fts' => List.Forall_cons _ ft fts' (Ty_nested_ind ft.2) (go fts')
            end) fieldtypes)
  | EitherType oid name fieldtypes =>
      Heither oid name fieldtypes
        ((fix go (vs : list EitherVariant)
            : Forall (fun v => from_option P True (v_recordtype v)) vs :=
            match vs with
            | [] => List.Forall_nil _
            | v :: vs' =>
                List.Forall_cons _ v vs'
                  (match v_recordtype v as o return from_option P True o with
                   | Some rt => Ty_nested_ind rt
                   | None => I
                   end) (go vs')
            end) fieldtypes)
  | ArrayType oid name valuetype indextype =>
      Harray oid name valuetype indextype
        (Ty_nested_ind valuetype) (Ty_nested_ind indextype)
  end.
End TyInd.

(** ** The monad: equations and loop invariants *)

Lemma bind_Ok {S A B} (m : M S A) (k : A -> M S B) s a s' :
  m s = (Ok a, s') -> bind m k s = k a s'.
Proof. intros H. unfold bind. now rewrite H. Qed.

Lemma bind_Throw {S A B} (m : M S A) (k : A -> M S B) s e s' :
  m s = (Throw e, s') -> bind m k s = (Throw e, s').
Proof. intros H. unfold bind. now rewrite H. Qed.

Lemma bind_inv {S A B} (m : M S A) (k : A -> M S B) s r s' :
  bind m k s = (r, s') ->
  (exists a s1, m s = (Ok a, s1) /\ k a s1 = (r, s'))
  \/ (exists e, m s = (Throw e, s') /\ r = Throw e).
Proof.
  unfold bind. destruct (m s) as [[a|e] s1]; intros H.
  - left. eauto.
  - right. inversion H; subst. eauto.
Qed.

Lemma mapM_Ok_run {S A B} (f : A -> M S B) xs s ys s' :
  mapM f xs s = (Ok ys, s') <-> mapM_run f xs s ys s'.
Proof.
  split.
  - revert s ys s'. induction xs as [|x xs IH]; intros s ys s' H; simpl in H.
    + inversion H; subst. constructor.
    + apply bind_inv in H as [(y & s1 & Hf & H)|(e & _ & He)]; [|discriminate].
      apply bind_inv in H as [(zs & s2 & Hm & H)|(e & _ & He)]; [|discriminate].
      inversion H; subst. econstructor; eauto.
  - induction 1 as [|x xs y ys s s1 s2 Hf _ IH]; simpl; [reflexivity|].
    rewrite (bind_Ok _ _ _ _ _ Hf), (bind_Ok _ _ _ _ _ IH). reflexivity.
Qed.

(** A loop invariant for [mapM]: a reflexive, transitive relation between
    states that every call of [f] respects, and a boolean that tells which
    calls return. *)
Lemma mapM_invariant {S A B} (R : S -> S -> Prop) (ok : A -> bool)
    (f : A -> M S B) (xs : list A) (s0 : S) :
  (forall s, R s s) ->
  (forall s1 s2 s3, R s1 s2 -> R s2 s3 -> R s1 s3) ->
  Forall (fun x => forall s, R s0 s ->
            R s (f x s).2 /\ is_ok (f x s).1 = ok x) xs ->
  forall s, R s0 s ->
    R s (mapM f xs s).2 /\ is_ok (mapM f xs s).1 = forallb ok xs.
Proof.
  intros Hrefl Htrans Hall. induction Hall as [|x xs Hx _ IH]; intros s Hs.
  - split; [apply Hrefl|reflexivity].
  - cbn [mapM forallb]. destruct (Hx s Hs) as [HR Hok].
    destruct (f x s) as [[y|e] s1] eqn:Hf; cbn [fst snd is_ok] in HR, Hok.
    + rewrite (bind_Ok _ _ _ _ _ Hf).
      destruct (IH s1 (Htrans _ _ _ Hs HR)) as [HR' Hok'].
      destruct (mapM f xs s1) as [[ys|e] s2] eqn:Hm; cbn [fst snd is_ok] in HR', Hok'.
      * rewrite (bind_Ok _ _ _ _ _ Hm). cbn. rewrite <- Hok, <- Hok'. eauto.
      * rewrite (bind_Throw _ _ _ _ _ Hm). cbn. rewrite <- Hok, <- Hok'. eauto.
    + rewrite (bind_Throw _ _ _ _ _ Hf). cbn. rewrite <- Hok. eauto.
Qed.

(** A continuation that only wraps the result changes neither the state nor
    whether the computation returns. *)
Lemma bind_ret_effect {S A B} (m : M S A) (g : A -> B) s :
  (bind m (fun a => ret (g a)) s).2 = (m s).2
  /\ is_ok (bind m (fun a => ret (g a)) s).1 = is_ok (m s).1.
Proof. unfold bind, ret. destruct (m s) as [[a|e] s']; auto. Qed.

(** Every element of a [mapM] that returns was handled in a state related
    to the initial one. *)
Lemma mapM_run_Forall2 {S A B} (R : S -> S -> Prop) (f : A -> M S B) xs s ys s' :
  (forall s, R s s) ->
  (forall s1 s2 s3, R s1 s2 -> R s2 s3 -> R s1 s3) ->
  (forall x s, R s (f x s).2) ->
  mapM_run f xs s ys s' ->
  forall s0, R s0 s ->
    Forall2 (fun x y => exists s1 s2, R s0 s1 /\ f x s1 = (Ok y, s2)) xs ys.
Proof.
  intros Hrefl Htrans Hf. induction 1 as [|x xs y ys s s1 s2 Hx _ IH]; intros s0 Hs.
  - constructor.
  - constructor; [eauto|]. apply IH. eapply Htrans; [exact Hs|].
    specialize (Hf x s). now rewrite Hx in Hf.
Qed.

Lemma mapM_rel {S A B} (R : S -> S -> Prop) (f : A -> M S B) xs :
  (forall s, R s s) ->
  (forall s1 s2 s3, R s1 s2 -> R s2 s3 -> R s1 s3) ->
  Forall (fun x => forall s, R s (f x s).2) xs ->
  forall s, R s (mapM f xs s).2.
Proof.
  intros Hrefl Htrans Hall. induction Hall as [|x xs Hx _ IH]; intros s.
  - apply Hrefl.
  - cbn [mapM]. specialize (Hx s).
    destruct (f x s) as [[y|e] s1] eqn:Hf; cbn [snd] in Hx.
    + rewrite (bind_Ok _ _ _ _ _ Hf). specialize (IH s1).
      destruct (mapM f xs s1) as [[ys|e] s2] eqn:Hm; cbn [snd] in IH.
      * rewrite (bind_Ok _ _ _ _ _ Hm). cbn. eauto.
      * rewrite (bind_Throw _ _ _ _ _ Hm). cbn. eauto.
    + rewrite (bind_Throw _ _ _ _ _ Hf). exact Hx.
Qed.

(** ** Type.make: what a construction does to its state *)

Lemma make_rel_refl names w : make_rel names w w.
Proof. unfold make_rel, same_scope. split_and!; auto. Qed.

Lemma make_rel_trans names w1 w2 w3 :
  make_rel names w1 w2 -> make_rel names w2 w3 -> make_rel names w1 w3.
Proof.
  intros ([Ht Hp] & Hn & Hv) ([Ht' Hp'] & Hn' & Hv').
  unfold make_rel, same_scope. split_and!.
  - congruence.
  - congruence.
  - lia.
  - intros id Hid. rewrite Hv', Hv; auto.
Qed.

Lemma make_rel_mono names names' w w' :
  (forall id : string, id ∈ names -> id ∈ names') ->
  make_rel names w w' -> make_rel names' w w'.
Proof. intros Hsub (Hs & Hn & Hv). unfold make_rel. split_and!; auto. Qed.

Lemma make_rel_fresh names w : make_rel names w (fresh w).2.
Proof. unfold make_rel, same_scope. cbn. split_and!; auto. Qed.

Lemma getType_same_scope e e' id :
  env_types e' = env_types e -> env_parent e' = env_parent e ->
  getType e' id = getType e id.
Proof. destruct e, e'; simpl; intros -> ->; reflexivity. Qed.

Lemma resolvable_ext e e' decl :
  (forall id, getType e' id = getType e id) ->
  resolvable e' decl = resolvable e decl.
Proof.
  intros Hget. induction decl using Decl_nested_ind; simpl; auto.
  - induction H as [|f fs Hf _ IH]; simpl; [reflexivity|]. now rewrite Hf, IH.
  - induction H as [|f fs Hf _ IH]; simpl; [reflexivity|].
    rewrite IH. destruct f as [n [d|]]; simpl in *; [now rewrite Hf|reflexivity].
  - now rewrite Hget.
  - rewrite IHdecl. destruct H as [|arg args Harg _]; [reflexivity|]. now rewrite Harg.
Qed.

Lemma resolvable_make_rel names w w' decl :
  make_rel names w w' -> resolvable (env w') decl = resolvable (env w) decl.
Proof.
  intros ([Ht Hp] & _). apply resolvable_ext. intros id.
  now apply getType_same_scope.
Qed.

Section MakeEffect.
(** The statement proved of every declaration, and used of the nested
    ones. *)
Let effect (decl : Decl) : Prop :=
  forall name w,
    make_rel (binders decl) w (make decl name w).2
    /\ is_ok (make decl name w).1 = resolvable (env w) decl.

Lemma EitherVariant_new_effect field parenttype w :
  from_option effect True field.2 ->
  make_rel (variant_binders field) w
    (EitherVariant_new make field field.1 parenttype w).2
  /\ is_ok (EitherVariant_new make field field.1 parenttype w).1
     = match field.2 with None => true | Some type => resolvable (env w) type end.
Proof.
  destruct field as [name [type|]]; unfold EitherVariant_new, variant_binders;
    cbn [fst snd from_option]; intros IH.
  - rewrite (bind_Ok _ _ w (next w) (fresh w).2) by reflexivity.
    rewrite (bind_Ok _ _ (fresh w).2 (S (next w)) (fresh (fresh w).2).2) by reflexivity.
    set (w2 := (fresh (fresh w).2).2).
    destruct (bind_ret_effect (make type None)
                (fun recordtype => mkVariant (next w) name parenttype
                   (mkTag (S (next w)) (next w) parenttype name) (Some recordtype)) w2)
      as [-> ->].
    destruct (IH None w2) as [Hrel Hok]. split.
    + eapply make_rel_trans; [|exact Hrel].
      eapply make_rel_trans; apply make_rel_fresh.
    + rewrite Hok. reflexivity.
  - destruct w as [[ts vs p] n]; unfold make_rel, same_scope; cbn.
    split_and!; auto with lia.
    intros id Hid. apply lookup_insert_ne. intros ->. apply Hid. constructor.
Qed.

Lemma make_effect decl : effect decl.
Proof.
  induction decl as [low high|fields IH|fields IH|value|base args indexBy IHargs IHindex|kind]
    using Decl_nested_ind; intros name w.
  - cbn. split; [apply (make_rel_fresh [] w)|reflexivity].
  - cbn [make binders resolvable].
    rewrite (bind_Ok _ _ w (next w) (fresh w).2) by reflexivity.
    match goal with |- context [bind (mapM ?f fields) ?k] =>
      destruct (bind_ret_effect (mapM f fields) (RecordType (next w) name) (fresh w).2)
        as [-> ->];
      destruct (mapM_invariant (make_rel (binders (DRecord fields)))
                  (fun field : string * Decl => resolvable (env w) field.2)
                  f fields (fresh w).2 (make_rel_refl _) (make_rel_trans _))
        with (s := (fresh w).2) as [Hrel Hok]
    end.
    + apply Forall_forall. intros field Hin s Hs.
      rewrite Forall_forall in IH. specialize (IH field Hin None s) as [Hrel Hok].
      destruct (bind_ret_effect (make field.2 None) (fun type => (field.1, type)) s)
        as [-> ->]. split.
      * eapply make_rel_mono; [|exact Hrel]. intros id Hid. cbn.
        apply list_elem_of_In, in_flat_map. exists field.
        split; apply list_elem_of_In; assumption.
      * rewrite Hok. apply (resolvable_make_rel _ _ _ _ Hs).
    + apply make_rel_refl.
    + split; [|exact Hok].
      eapply make_rel_trans; [apply make_rel_fresh|exact Hrel].
  - cbn [make binders resolvable]. unfold EitherType_new.
    rewrite (bind_Ok _ _ w (next w) (fresh w).2) by reflexivity.
    match goal with |- context [bind (mapM ?f fields) ?k] =>
      destruct (bind_ret_effect (mapM f fields) (EitherType (next w) name) (fresh w).2)
        as [-> ->];
      destruct (mapM_invariant (make_rel (binders (DEither fields)))
                  (fun field : string * option Decl =>
                     match field.2 with
                     | None => true
                     | Some type => resolvable (env w) type
                     end)
                  f fields (fresh w).2 (make_rel_refl _) (make_rel_trans _))
        with (s := (fresh w).2) as [Hrel Hok]
    end.
    + apply Forall_forall. intros field Hin s Hs.
      rewrite Forall_forall in IH. specialize (IH field Hin).
      destruct (EitherVariant_new_effect field (next w) s IH) as [Hrel Hok]. split.
      * eapply make_rel_mono; [|exact Hrel]. intros id Hid. cbn.
        apply list_elem_of_In, in_flat_map. exists field.
        split; apply list_elem_of_In; assumption.
      * rewrite Hok. destruct field.2; [|reflexivity].
        apply (resolvable_make_rel _ _ _ _ Hs).
    + apply make_rel_refl.
    + split; [|exact Hok].
      eapply make_rel_trans; [apply make_rel_fresh|exact Hrel].
  - cbn. unfold bind, env_getType. destruct (getType (env w) value) eqn:Hget; cbn.
    + split; [apply make_rel_refl|reflexivity].
    + split; [apply make_rel_refl|reflexivity].
  - cbn [make binders resolvable]. destruct (decide (base = "Array")) as [->|Hne].
    2: { cbn. split; [apply make_rel_refl|].
         rewrite bool_decide_eq_false_2 by assumption. reflexivity. }
    rewrite bool_decide_eq_true_2 by reflexivity. cbn [andb].
    rewrite (bind_Ok _ _ w (next w) (fresh w).2) by reflexivity.
    assert (Hw1 : make_rel (match args with arg :: _ => binders arg | [] => [] end
                            ++ binders indexBy) w (fresh w).2)
      by apply make_rel_fresh.
    destruct args as [|arg args].
    + cbn. split; [exact Hw1|reflexivity].
    + apply Forall_cons in IHargs as [IHarg _].
      destruct (IHarg None (fresh w).2) as [Hrel1 Hok1].
      change (env (fresh w).2) with (env w) in Hok1.
      destruct (make arg None (fresh w).2) as [[valuetype|e] w2] eqn:Harg;
        cbn [fst snd is_ok] in Hrel1, Hok1.
      2: { rewrite (bind_Throw _ _ _ _ _ Harg). cbn [fst snd is_ok].
           rewrite <- Hok1. split; [|reflexivity].
           eapply make_rel_trans; [exact Hw1|].
           eapply make_rel_mono; [|exact Hrel1]. intros id Hid.
           apply elem_of_app. now left. }
      rewrite (bind_Ok _ _ _ _ _ Harg). rewrite <- Hok1. cbn [andb].
      destruct (bind_ret_effect (make indexBy None)
                  (ArrayType (next w) name valuetype) w2) as [-> ->].
      destruct (IHindex None w2) as [Hrel2 Hok2]. split.
      * eapply make_rel_trans; [exact Hw1|].
        eapply make_rel_trans; (eapply make_rel_mono; [|eassumption]);
          intros id Hid; apply elem_of_app; auto.
      * rewrite Hok2. apply (resolvable_make_rel (binders arg)).
        eapply make_rel_trans; [apply make_rel_fresh|exact Hrel1].
  - cbn. split; [apply make_rel_refl|reflexivity].
Qed.
End MakeEffect.

Lemma make_rel_make decl name w r w' :
  make decl name w = (r, w') -> make_rel (binders decl) w w'.
Proof. intros H. destruct (make_effect decl name w) as [Hrel _]. now rewrite H in Hrel. Qed.

Lemma make_ok_resolvable decl name w :
  is_ok (make decl name w).1 = resolvable (env w) decl.
Proof. apply make_effect. Qed.

Lemma make_DRecord fields name w :
  make (DRecord fields) name w
  = bind fresh (fun oid =>
      bind (mapM make_field fields) (fun fieldtypes =>
        ret (RecordType oid name fieldtypes))) w.
Proof. reflexivity. Qed.


Lemma make_DEither fields name w :
  make (DEither fields) name w
  = bind fresh (fun oid =>
      bind (mapM (make_variant oid) fields) (fun fieldtypes =>
        ret (EitherType oid name fieldtypes))) w.
Proof. reflexivity. Qed.

Lemma make_variant_rel parenttype field w :
  make_rel (variant_binders field) w (make_variant parenttype field w).2.
Proof.
  apply EitherVariant_new_effect. destruct field as [n [d|]]; cbn; [|exact I].
  apply make_effect.
Qed.

(** What [Type.make] assigns and allocates, as a hypothesis on a
    [makeType] reads it. *)
Lemma make_frame decl name w : make_rel (binders decl) w (make decl name w).2.
Proof. apply make_effect. Qed.

Lemma make_next decl name w : (next w <= next (make decl name w).2)%nat.
Proof. apply make_frame. Qed.

(** ** new EitherType: what the constructors do, for every makeType *)

Section EitherConstructor.
Variable makeType : Decl -> option string -> M World Ty.

Lemma new_variant_Ok parenttype field w v w' :
  new_variant makeType parenttype field w = (Ok v, w') ->
  variant_of parenttype field v
  /\ (v_oid v = next w /\ tag_oid (v_tag v) = S (next w))
  /\ variant_effect makeType field v w w'.
Proof.
  unfold new_variant, EitherVariant_new, variant_of, variant_effect.
  destruct field as [name [type|]]; cbn [fst snd]; intros H.
  - apply bind_inv in H as [(oid & w1 & Hf1 & H)|(e & _ & He)]; [|discriminate].
    inversion Hf1; subst oid w1; clear Hf1.
    apply bind_inv in H as [(toid & w2 & Hf2 & H)|(e & _ & He)]; [|discriminate].
    inversion Hf2; subst toid w2; clear Hf2.
    apply bind_inv in H as [(rt & w3 & Hm & H)|(e & _ & He)]; [|discriminate].
    inversion H; subst; clear H. cbn. split_and!; auto; try (split; discriminate).
    eauto.
  - cbn in H. inversion H; subst; clear H. cbn. split_and!; auto. tauto.
Qed.

Lemma EitherType_new_eq fields name w :
  EitherType_new makeType fields name w
  = bind fresh (fun oid =>
      bind (mapM (new_variant makeType oid) fields) (fun fieldtypes =>
        ret (EitherType oid name fieldtypes))) w.
Proof. reflexivity. Qed.

(** [new EitherType] that returns: the run of the constructors of its
    variants. *)
Lemma EitherType_new_inv fields name w t w' :
  EitherType_new makeType fields name w = (Ok t, w') ->
  exists variants,
    t = EitherType (next w) name variants
    /\ mapM_run (new_variant makeType (next w)) fields (fresh w).2 variants w'.
Proof.
  intros H. rewrite EitherType_new_eq in H.
  apply bind_inv in H as [(oid & w1 & Hfresh & H)|(e & _ & He)]; [|discriminate].
  inversion Hfresh; subst oid w1; clear Hfresh.
  apply bind_inv in H as [(vs & w2 & Hmap & H)|(e & _ & He)]; [|discriminate].
  inversion H; subst; clear H. exists vs. split; [reflexivity|].
  now apply mapM_Ok_run.
Qed.

Lemma variants_shape parenttype fields w variants w' :
  mapM_run (new_variant makeType parenttype) fields w variants w' ->
  Forall2 (variant_of parenttype) fields variants.
Proof.
  induction 1 as [|x xs y ys s s1 s2 Hx Hrun IH]; constructor; [|exact IH].
  now apply new_variant_Ok in Hx as [Hshape _].
Qed.

Section Frame.
Variable assigns : Decl -> list string.
Hypothesis makeType_frame :
  forall decl name w, make_rel (assigns decl) w (makeType decl name w).2.

Lemma new_variant_rel parenttype field w :
  make_rel (variant_assigns assigns field) w (new_variant makeType parenttype field w).2.
Proof.
  destruct field as [name [type|]]; unfold new_variant, EitherVariant_new, variant_assigns;
    cbn [fst snd].
  - rewrite (bind_Ok _ _ w (next w) (fresh w).2) by reflexivity.
    rewrite (bind_Ok _ _ (fresh w).2 (S (next w)) (fresh (fresh w).2).2) by reflexivity.
    set (w2 := (fresh (fresh w).2).2).
    destruct (bind_ret_effect (makeType type None)
                (fun recordtype => mkVariant (next w) name parenttype
                   (mkTag (S (next w)) (next w) parenttype name) (Some recordtype)) w2)
      as [-> _].
    eapply make_rel_trans; [|apply makeType_frame].
    eapply make_rel_trans; apply make_rel_fresh.
  - destruct w as [[ts vs p] n]; unfold make_rel, same_scope; cbn.
    split_and!; auto with lia.
    intros id Hid. apply lookup_insert_ne. intros ->. apply Hid. constructor.
Qed.

Lemma variants_rel parenttype fields w :
  make_rel (flat_map (variant_assigns assigns) fields) w
    (mapM (new_variant makeType parenttype) fields w).2.
Proof.
  apply (mapM_rel (make_rel (flat_map (variant_assigns assigns) fields)));
    [apply make_rel_refl|apply make_rel_trans|].
  apply Forall_forall. intros field Hin s.
  eapply make_rel_mono; [|apply new_variant_rel]. intros id Hid.
  apply list_elem_of_In, in_flat_map. exists field.
  split; apply list_elem_of_In; assumption.
Qed.

Lemma EitherType_new_rel fields name w :
  make_rel (flat_map (variant_assigns assigns) fields) w
    (EitherType_new makeType fields name w).2.
Proof.
  rewrite EitherType_new_eq.
  rewrite (bind_Ok _ _ w (next w) (fresh w).2) by reflexivity.
  destruct (bind_ret_effect (mapM (new_variant makeType (next w)) fields)
              (EitherType (next w) name) (fresh w).2) as [-> _].
  eapply make_rel_trans; [apply make_rel_fresh|apply variants_rel].
Qed.

(** The binding that each enum variant leaves behind, at the end of the
    run of [fields.map(field => new EitherVariant(...))]. *)
Lemma variants_bound parenttype fields w variants w' :
  mapM_run (new_variant makeType parenttype) fields w variants w' ->
  forall (i : nat) field v,
    fields !! i = Some field -> variants !! i = Some v ->
    field.2 = None ->
    field.1 ∉ flat_map (variant_assigns assigns) (drop (S i) fields) ->
    env_vars (env w') !! field.1 = Some (JTag (v_tag v)).
Proof.
  induction 1 as [|x xs y ys s s1 s2 Hx Hrun IH].
  - intros i field v Hi. discriminate.
  - apply new_variant_Ok in Hx as (_ & _ & Hstep). unfold variant_effect in Hstep.
    intros [|i] field v Hf Hv Henum Hlater; cbn in Hf, Hv, Hlater.
    + inversion Hf; subst field. inversion Hv; subst v. rewrite Henum in Hstep.
      apply mapM_Ok_run in Hrun.
      pose proof (variants_rel parenttype xs s1) as (_ & _ & Hframe).
      rewrite Hrun in Hframe. cbn [snd] in Hframe. rewrite drop_0 in Hlater.
      rewrite (Hframe _ Hlater). subst s1. destruct s as [[ts vs p] n]. cbn.
      apply lookup_insert_eq.
    + eapply IH; eauto.
Qed.
End Frame.

Section Identities.
Hypothesis makeType_next :
  forall decl name w, (next w <= next (makeType decl name w).2)%nat.

Lemma new_variant_next parenttype field w v w' :
  new_variant makeType parenttype field w = (Ok v, w') ->
  v_oid v = next w /\ (S (S (next w)) <= next w')%nat.
Proof.
  intros H. apply new_variant_Ok in H as (_ & [Hoid _] & Hstep).
  split; [exact Hoid|]. unfold variant_effect in Hstep. destruct field.2 as [type|].
  - destruct Hstep as (rt & _ & Hmake).
    pose proof (makeType_next type None (mkWorld (env w) (S (S (next w))))) as Hn.
    rewrite Hmake in Hn. exact Hn.
  - subst w'. cbn. lia.
Qed.

(** The identities of the variants grow along the list. *)
Lemma variants_oids parenttype fields w variants w' :
  mapM_run (new_variant makeType parenttype) fields w variants w' ->
  (next w <= next w')%nat
  /\ forall (i : nat) v, variants !! i = Some v ->
       (next w <= v_oid v)%nat
       /\ forall (j : nat) v', (i < j)%nat -> variants !! j = Some v' ->
            (v_oid v < v_oid v')%nat.
Proof.
  induction 1 as [|x xs y ys s s1 s2 Hx Hrun [IHn IHv]].
  - split; [lia|]. intros i v Hi. discriminate.
  - apply new_variant_next in Hx as [Hoid Hnext]. split; [lia|].
    intros [|i] v Hv; cbn in Hv.
    + inversion Hv; subst v. split; [lia|]. intros [|j] v' Hij Hv'; [lia|].
      cbn in Hv'. destruct (IHv j v' Hv') as [Hlow _]. lia.
    + destruct (IHv i v Hv) as [Hlow Hlater]. split; [lia|].
      intros [|j] v' Hij Hv'; [lia|]. cbn in Hv'. apply (Hlater j); [lia|exact Hv'].
Qed.
End Identities.
End EitherConstructor.

(** The chain that [getType] walks: a local binding wins, a name that the
    local scope does not bind is looked up in the parent. *)
Lemma getType_local ts vs p id t :
  ts !! id = Some t -> getType (mkEnv ts vs p) id = Some t.
Proof. intros H. cbn. now rewrite H. Qed.

Lemma getType_parent ts vs p id :
  ts !! id = None -> getType (mkEnv ts vs (Some p)) id = getType p id.
Proof. intros H. cbn. now rewrite H. Qed.

Lemma getType_root_miss ts vs id :
  ts !! id = None -> getType (mkEnv ts vs None) id = None.
Proof. intros H. cbn. now rewrite H. Qed.

Lemma getType_assignType id t e : getType (assignType id t e) id = Some t.
Proof. destruct e as [ts vs p]. cbn. now rewrite lookup_insert_eq. Qed.

(** ** Claims about Type.make *)

(** C2 (as the code has it).  [Type.make] on a range declaration returns for
    every pair of bounds, [low > high] included, and the range type carries
    exactly the declared bounds; nothing but a fresh identity is added to
    the state. *)
Theorem C2_make_range_accepts_any_bounds low high name w :
  exists t w',
    make (DRange low high) name w = (Ok t, w')
    /\ type_low t = Some low /\ type_high t = Some high
    /\ getName t = name /\ type_oid t = next w
    /\ env w' = env w /\ next w' = S (next w).
Proof.
  exists (RangeType (next w) name low high), (mkWorld (env w) (S (next w))).
  cbn. split_and!; reflexivity.
Qed.

(** C2, counterexample: the declaration [5..3] has [low > high], and
    [Type.make] returns a range type with these bounds. *)
Lemma C2_inverted_range_is_made :
  make (DRange 5 3) None w0 = (Ok (RangeType 0 None 5 3), mkWorld env0 1)
  /\ 5 > 3.
Proof. split; [reflexivity|lia]. Qed.



(** C4.  [Type.make] on an alias declaration returns the type that
    [getType] finds for the name in the chain of the environment: the
    registered object itself (same identity, same content), whatever [name]
    is passed, and the state is left as it was, so that no identity is
    allocated; when the chain binds the name nowhere it throws UnknownType
    for that name. *)
Theorem C4_make_alias_returns_registered value name w :
  match getType (env w) value with
  | Some t => make (DAlias value) name w = (Ok t, w)
  | None => make (DAlias value) name w = (Throw (UnknownType value), w)
  end.
Proof.
  cbn. unfold bind, env_getType.
  destruct (getType (env w) value) as [t|] eqn:Hget; reflexivity.
Qed.

(** [type A: 0..9; type B: A]: making [B] in a module whose parent
    registered [A] returns the object registered as [A]. *)
Example alias_through_parent :
  let A := RangeType 0 (Some "A") 0 9 in
  let prelude := assignType "A" A env0 in
  let module := mkWorld (mkEnv ∅ ∅ (Some prelude)) 1 in
  make (DAlias "A") (Some "B") module = (Ok A, module).
Proof. reflexivity. Qed.

(** C10.  [new EitherType(decl, env, name)] of [types/either.js] builds one
    variant per field of the declaration, in order, each with a tag of its
    own, and this for every [makeType] that the constructors of the variants
    call on the nested types.  The constructor of an enum variant assigns,
    in the local scope of the environment, the tag of the variant to the
    name of the variant, and does nothing else to the state; the
    constructor of a variant with a nested type leaves the state that
    [makeType] leaves for the nested type, and assigns nothing itself
    ([variant_effect]).  Hence, for a [makeType] that keeps to the names
    [assigns] and leaves the type bindings and the parent chain alone: when
    [new EitherType] returns, the environment binds the name of every enum
    variant to that variant's tag (unless a later field assigns the same
    name again), and every name that is neither the name of an enum variant
    nor assigned by [makeType] keeps the binding it had, the names of the
    record variants among them.  All of this is done by the constructors of
    the type, no value being created.  When [new EitherType] throws, the
    same frame holds of the state it leaves. *)
Theorem C10_EitherType_registers_enum_tags makeType assigns fields name w :
  (forall decl name' w1, make_rel (assigns decl) w1 (makeType decl name' w1).2) ->
  match EitherType_new makeType fields name w with
  | (Ok t, w') =>
      make_rel (flat_map (variant_assigns assigns) fields) w w'
      /\ exists variants,
          t = EitherType (next w) name variants
          /\ Forall2 (variant_of (next w)) fields variants
          /\ Forall2 (fun field v =>
                        exists w1 w2,
                          same_scope w w1
                          /\ new_variant makeType (next w) field w1 = (Ok v, w2)
                          /\ variant_effect makeType field v w1 w2)
               fields variants
          /\ forall (i : nat) field v,
              fields !! i = Some field -> variants !! i = Some v ->
              field.2 = None ->
              field.1 ∉ flat_map (variant_assigns assigns) (drop (S i) fields) ->
              env_vars (env w') !! field.1 = Some (JTag (v_tag v))
  | (Throw e, w') =>
      make_rel (flat_map (variant_assigns assigns) fields) w w'
  end.
Proof.
  intros Hframe.
  pose proof (EitherType_new_rel makeType assigns Hframe fields name w) as Hrel.
  destruct (EitherType_new makeType fields name w) as [[t|e] w'] eqn:Hnew;
    cbn [snd] in Hrel; [|exact Hrel].
  split; [exact Hrel|].
  apply EitherType_new_inv in Hnew as (variants & -> & Hrun).
  exists variants. split; [reflexivity|].
  split; [exact (variants_shape _ _ _ _ _ _ Hrun)|].
  split; [|exact (variants_bound makeType assigns Hframe _ _ _ _ _ Hrun)].
  eapply (mapM_run_Forall2 (fun a b => same_scope a b)) in Hrun.
  - eapply Forall2_impl; [exact Hrun|]. cbn beta.
    intros field v (s1 & s2 & Hs & Hf). exists s1, s2.
    split; [exact Hs|]. split; [exact Hf|].
    now apply new_variant_Ok in Hf as (_ & _ & Heffect).
  - intros s. split; reflexivity.
  - intros s1 s2 s3 [? ?] [? ?]. split; congruence.
  - intros field s. apply (new_variant_rel makeType assigns Hframe).
  - split; reflexivity.
Qed.

(** C10, witness: [type T: either { A, B { x: 0..1 } }], with the dispatch
    [make] as [makeType].  [A] is bound to its tag, [B] is not bound. *)
Lemma C10_T_binds_A_not_B :
  env_vars (env (EitherType_new make
                   [("A", None); ("B", Some (DRecord [("x", DRange 0 1)]))]
                   (Some "T") w0).2) !! "A"
  = Some (JTag tagA)
  /\ env_vars (env (EitherType_new make
                      [("A", None); ("B", Some (DRecord [("x", DRange 0 1)]))]
                      (Some "T") w0).2) !! "B"
     = None.
Proof.
  pose proof (C10_EitherType_registers_enum_tags make binders
                [("A", None); ("B", Some (DRecord [("x", DRange 0 1)]))]
                (Some "T") w0 make_frame) as H.
  remember (EitherType_new make [("A", None); ("B", Some (DRecord [("x", DRange 0 1)]))]
              (Some "T") w0) as r eqn:Hr.
  vm_compute in Hr. subst r.
  destruct H as ((_ & _ & Hkept) & variants & Ht & _ & _ & Hbound).
  injection Ht as <-. split.
  - apply (Hbound 0%nat ("A", None) (mkVariant 1 "A" 0 tagA None));
      [reflexivity|reflexivity|reflexivity|].
    cbn. apply not_elem_of_nil.
  - cbn [snd] in *. rewrite Hkept; [reflexivity|].
    cbn. intros Hin. apply elem_of_cons in Hin as [Hin|Hin]; [discriminate|].
    now apply not_elem_of_nil in Hin.
Defined.

(** ** Claims about range values *)

(** C1.  On a range value of a type with bounds [low] and [high],
    [assign(v)] returns exactly when [low <= v <= high], and then the value
    stored is [v] and no other object has changed; otherwise [v < low] or
    [v > high], it throws OutOfRange and the heap, the stored value
    included, is as it was. *)
Theorem C1_RangeValue_assign_in_bounds (h : Heap) this oid name low high cur v :
  h !! this = Some (RangeValue (RangeType oid name low high) cur) ->
  (low <= v <= high <->
   exists h', RangeValue_assign this v h = (Ok tt, h')
              /\ h' !! this = Some (RangeValue (RangeType oid name low high) v)
              /\ forall l, l <> this -> h' !! l = h !! l)
  /\ (~ low <= v <= high ->
      (v < low \/ v > high)
      /\ RangeValue_assign this v h = (Throw (OutOfRange v name low high), h)
      /\ h !! this = Some (RangeValue (RangeType oid name low high) cur)).
Proof.
  intros Hthis. unfold RangeValue_assign. rewrite Hthis. cbn.
  destruct (v <? low) eqn:Hlt; [apply Z.ltb_lt in Hlt|apply Z.ltb_ge in Hlt]; cbn.
  - split.
    + split; [lia|]. intros (h' & H & _). discriminate.
    + intros _. split_and!; auto.
  - destruct (v >? high) eqn:Hgt; rewrite Z.gtb_ltb in Hgt;
      [apply Z.ltb_lt in Hgt|apply Z.ltb_ge in Hgt].
    + split.
      * split; [lia|]. intros (h' & H & _). discriminate.
      * intros _. split_and!; auto. right. lia.
    + split.
      * split; [|lia]. intros _. eexists. split; [reflexivity|]. split.
        -- apply list_lookup_insert_eq. eapply lookup_lt_Some; eauto.
        -- intros l Hl. apply list_lookup_insert_ne. auto.
      * intros Hn. lia.
Qed.

(** C1, witness: [type Digit: 0..9], a value holding 5, and [assign(10)]. *)
Lemma C1_digit_rejects_10 :
  (0 <= 10 <= 9 <->
   exists h', RangeValue_assign 0 10 [RangeValue (RangeType 0 (Some "Digit") 0 9) 5]
              = (Ok tt, h')
              /\ h' !! 0%nat = Some (RangeValue (RangeType 0 (Some "Digit") 0 9) 10)
              /\ forall l, l <> 0%nat ->
                   h' !! l = [RangeValue (RangeType 0 (Some "Digit") 0 9) 5] !! l)
  /\ (~ 0 <= 10 <= 9 ->
      (10 < 0 \/ 10 > 9)
      /\ RangeValue_assign 0 10 [RangeValue (RangeType 0 (Some "Digit") 0 9) 5]
         = (Throw (OutOfRange 10 (Some "Digit") 0 9),
            [RangeValue (RangeType 0 (Some "Digit") 0 9) 5])
      /\ [RangeValue (RangeType 0 (Some "Digit") 0 9) 5] !! 0%nat
         = Some (RangeValue (RangeType 0 (Some "Digit") 0 9) 5)).
Proof.
  apply (C1_RangeValue_assign_in_bounds
           [RangeValue (RangeType 0 (Some "Digit") 0 9) 5] 0 0 (Some "Digit") 0 9 5 10).
  reflexivity.
Defined.

(** ** Default values are stable *)

Lemma preserves_from_refl lo h : preserves_from lo h h.
Proof. intros k o _ H. exact H. Qed.

Lemma preserves_from_trans lo h1 h2 h3 :
  preserves_from lo h1 h2 -> preserves_from lo h2 h3 -> preserves_from lo h1 h3.
Proof. intros H12 H23 k o Hk H. eauto. Qed.

Lemma preserves_from_weaken lo lo' h h' :
  (lo <= lo')%nat -> preserves_from lo h h' -> preserves_from lo' h h'.
Proof. intros Hle H k o Hk. apply H. lia. Qed.

Lemma preserves_length h h' : preserves h h' -> (List.length h <= List.length h')%nat.
Proof.
  intros H. destruct (decide (List.length h = 0%nat)) as [->|Hne]; [lia|].
  destruct (lookup_lt_is_Some_2 h (List.length h - 1)) as [o Ho]; [lia|].
  apply H in Ho; [|lia]. apply lookup_lt_Some in Ho. lia.
Qed.

Lemma preserves_alloc h o : preserves h (h ++ [o]).
Proof. intros k o' _ H. now apply lookup_app_l_Some. Qed.

Lemma preserves_from_insert lo h (l : nat) o :
  (l < lo)%nat -> preserves_from lo h (<[l := o]> h).
Proof. intros Hl k o' Hk H. rewrite list_lookup_insert_ne; [exact H|lia]. Qed.

Lemma default_at_preserved lo type :
  forall h h' l,
    preserves_from lo h h' -> default_at lo h type l -> default_at lo h' type l.
Proof.
  induction type as [oid name low high|oid name fts IH|oid name vs IH
                    |oid name vt it IHv _] using Ty_nested_ind;
    intros h h' l Hpres Hd; inversion Hd; subst.
  - constructor; auto.
  - econstructor; eauto. intros i n ft Hi Hlast.
    match goal with Hc : forall (i : nat) n ft, _ -> _ -> exists c, _ |- _ =>
      destruct (Hc i n ft Hi Hlast) as (c & Hc' & Hdc) end.
    exists c. split; [assumption|].
    rewrite Forall_lookup in IH. apply (IH i (n, ft) Hi h h' c Hpres Hdc).
  - apply default_either_enum; auto.
  - eapply default_either_record; eauto.
    apply Forall_cons in IH as [IHfirst _].
    match goal with Hr : v_recordtype _ = Some _ |- _ => rewrite Hr in IHfirst end.
    cbn in IHfirst. eapply IHfirst; eauto.
  - econstructor; eauto. eapply Forall_impl; [eassumption|]. cbn. eauto.
Qed.

Lemma default_at_lower lo lo' type :
  (lo' <= lo)%nat ->
  forall h l, default_at lo h type l -> default_at lo' h type l.
Proof.
  intros Hle.
  induction type as [oid name low high|oid name fts IH|oid name vs IH
                    |oid name vt it IHv _] using Ty_nested_ind;
    intros h l Hd; inversion Hd; subst.
  - constructor; [lia|auto].
  - econstructor; eauto; [lia|]. intros i n ft Hi Hlast.
    match goal with Hc : forall (i : nat) n ft, _ -> _ -> exists c, _ |- _ =>
      destruct (Hc i n ft Hi Hlast) as (c & Hc' & Hdc) end.
    exists c. split; [assumption|].
    rewrite Forall_lookup in IH. apply (IH i (n, ft) Hi h c Hdc).
  - apply default_either_enum; auto. lia.
  - eapply default_either_record; eauto; [lia|].
    apply Forall_cons in IH as [IHfirst _].
    match goal with Hr : v_recordtype _ = Some _ |- _ => rewrite Hr in IHfirst end.
    cbn in IHfirst. eapply IHfirst; eauto.
  - econstructor; eauto; [lia|]. eapply Forall_impl; [eassumption|]. cbn. eauto.
Qed.

(** ** makeDefaultValue builds a default value *)

Lemma makeDefaultValue_RecordType oid name fieldtypes :
  makeDefaultValue (RecordType oid name fieldtypes)
  = bind (alloc (RecordValue (RecordType oid name fieldtypes) ∅)) (fun this =>
      bind (forEachM (init_field this) fieldtypes) (fun _ => ret this)).
Proof. reflexivity. Qed.

Lemma replicateM_defaults valuetype :
  makes_default valuetype ->
  forall n h,
    match replicateM n (makeDefaultValue valuetype) h with
    | (Ok items, h') =>
        match n with O => true | S _ => defaultable valuetype end = true
        /\ List.length items = n
        /\ preserves h h'
        /\ Forall (default_at (List.length h) h' valuetype) items
    | (Throw e, h') =>
        match n with O => true | S _ => defaultable valuetype end = false
        /\ e = TypeError /\ preserves h h'
    end.
Proof.
  intros Hspec. induction n as [|n IH]; intros h.
  - cbn. split_and!; auto. apply preserves_from_refl.
  - cbn [replicateM]. specialize (Hspec h).
    destruct (makeDefaultValue valuetype h) as [[c|e] h1] eqn:Hc.
    + rewrite (bind_Ok _ _ _ _ _ Hc). destruct Hspec as (Hd & -> & Hp1 & Hdc).
      specialize (IH h1).
      destruct (replicateM n (makeDefaultValue valuetype) h1) as [[items|e] h2] eqn:Hr.
      * rewrite (bind_Ok _ _ _ _ _ Hr). cbn. destruct IH as (_ & Hlen & Hp2 & Hall).
        split_and!; [assumption|lia|eapply preserves_from_trans; eassumption|].
        constructor.
        -- eapply default_at_preserved; [|exact Hdc].
           eapply preserves_from_weaken; [|exact Hp2]. lia.
        -- eapply Forall_impl; [exact Hall|]. intros c Hdef.
           eapply default_at_lower; [|exact Hdef]. now apply preserves_length.
      * exfalso. destruct IH as (Hn & _). destruct n; [discriminate|congruence].
    + rewrite (bind_Throw _ _ _ _ _ Hc). exact Hspec.
Qed.

(** The loop of [new RecordValue(type)], from a state in which the fields
    [done] have been handled: [props] are the properties set so far on the
    object at [this], [h0] is the heap before the object was allocated. *)
Lemma init_fields_spec (type : Ty) (this : nat) (h0 : Heap) rest :
  (List.length h0 <= this)%nat ->
  Forall (fun ft : string * Ty => makes_default ft.2) rest ->
  forall (done : list (string * Ty)) (props : gmap string nat) (h : Heap),
    preserves h0 h ->
    h !! this = Some (RecordValue type props) ->
    (forall n : string, is_Some (props !! n) <-> n ∈ done.*1) ->
    (forall (i : nat) n ft,
        done !! i = Some (n, ft) -> n ∉ (drop (S i) done).*1 ->
        exists c, props !! n = Some c /\ default_at (S this) h ft c) ->
    match forEachM (init_field this) rest h with
    | (Ok _, h') =>
        forallb (fun ft : string * Ty => defaultable ft.2) rest = true
        /\ preserves h0 h'
        /\ exists props',
            h' !! this = Some (RecordValue type props')
            /\ (forall n : string, is_Some (props' !! n) <-> n ∈ (done ++ rest).*1)
            /\ (forall (i : nat) n ft,
                   (done ++ rest) !! i = Some (n, ft) ->
                   n ∉ (drop (S i) (done ++ rest)).*1 ->
                   exists c, props' !! n = Some c /\ default_at (S this) h' ft c)
    | (Throw e, h') =>
        forallb (fun ft : string * Ty => defaultable ft.2) rest = false
        /\ e = TypeError /\ preserves h0 h'
    end.
Proof.
  intros Hthis0 Hall. induction Hall as [|x rest Hx _ IH];
    intros done props h Hpres Hthis Hdom Hchildren.
  - cbn. rewrite app_nil_r. split_and!; eauto.
  - cbn [forEachM forallb]. specialize (Hx h).
    destruct (makeDefaultValue x.2 h) as [[c|e] h1] eqn:Hc.
    + destruct Hx as (Hd & -> & Hp1 & Hdc). rewrite Hd. cbn [andb].
      assert (Hthis1 : h1 !! this = Some (RecordValue type props))
        by (apply (Hp1 this); [lia|exact Hthis]).
      pose proof (lookup_lt_Some _ _ _ Hthis) as Hlt.
      pose proof (lookup_lt_Some _ _ _ Hthis1) as Hlt1.
      set (h2 := <[this := RecordValue type (<[x.1 := List.length h]> props)]> h1).
      assert (Hstep : init_field this x h = (Ok tt, h2)).
      { unfold init_field. rewrite (bind_Ok _ _ _ _ _ Hc).
        unfold set_prop. now rewrite Hthis1. }
      rewrite (bind_Ok _ _ _ _ _ Hstep).
      assert (Hp2 : preserves_from (S this) h h2).
      { eapply preserves_from_trans.
        - eapply preserves_from_weaken; [|exact Hp1]. lia.
        - apply preserves_from_insert. lia. }
      specialize (IH (done ++ [x]) (<[x.1 := List.length h]> props) h2).
      rewrite <- app_assoc in IH. cbn [app] in IH. apply IH; clear IH.
      * intros k o _ Hk. pose proof (lookup_lt_Some _ _ _ Hk).
        unfold h2. rewrite list_lookup_insert_ne by lia.
        apply (Hp1 k); [lia|]. apply (Hpres k); [lia|exact Hk].
      * unfold h2. now apply list_lookup_insert_eq.
      * intros n. rewrite fmap_app, elem_of_app, <- Hdom. cbn.
        rewrite list_elem_of_singleton, lookup_insert_is_Some.
        destruct (decide (x.1 = n)); intuition congruence.
      * intros i n ft Hi Hlast.
        destruct (decide (i < List.length done)%nat) as [Hilt|Hige];
          [|apply Nat.nlt_ge in Hige].
        -- rewrite lookup_app_l in Hi by exact Hilt.
           rewrite drop_app_le, fmap_app in Hlast by lia.
           apply not_elem_of_app in Hlast as [Hlast Hne]. cbn in Hne.
           rewrite list_elem_of_singleton in Hne.
           destruct (Hchildren i n ft Hi Hlast) as (c & Hlook & Hdef).
           exists c. split; [rewrite lookup_insert_ne; auto|].
           eapply default_at_preserved; [exact Hp2|exact Hdef].
        -- rewrite lookup_app_r in Hi by exact Hige.
           destruct (i - List.length done)%nat eqn:Hdiff; [|destruct n0; discriminate].
           cbn in Hi. inversion Hi; subst x. cbn [fst snd] in *.
           exists (List.length h). split; [apply lookup_insert_eq|].
           apply (default_at_preserved (S this) ft h1).
           ++ apply preserves_from_insert. lia.
           ++ eapply default_at_lower; [|exact Hdc]. lia.
    + destruct Hx as (Hd & -> & Hp1). rewrite Hd. cbn [andb].
      assert (Hstep : init_field this x h = (Throw TypeError, h1)).
      { unfold init_field. now rewrite (bind_Throw _ _ _ _ _ Hc). }
      rewrite (bind_Throw _ _ _ _ _ Hstep). split_and!; auto.
      eapply preserves_from_trans; eassumption.
Qed.

Lemma lookup_alloc (h : Heap) o : (h ++ [o]) !! List.length h = Some o.
Proof. now apply list_lookup_middle. Qed.

Lemma makeDefaultValue_makes_default type : makes_default type.
Proof.
  induction type as [oid name low high|oid name fts IH|oid name vs IH
                    |oid name vt it IHv _] using Ty_nested_ind; intros h.
  - cbn. split_and!; auto using preserves_alloc.
    constructor; [lia|apply lookup_alloc].
  - rewrite makeDefaultValue_RecordType.
    rewrite (bind_Ok _ _ h (List.length h)
               (h ++ [RecordValue (RecordType oid name fts) ∅])) by reflexivity.
    pose proof (init_fields_spec (RecordType oid name fts) (List.length h) h fts
                  (le_n _) IH [] ∅ (h ++ [RecordValue (RecordType oid name fts) ∅])
                  (preserves_alloc _ _) (lookup_alloc _ _)) as Hloop.
    cbn [app] in Hloop.
    destruct (forEachM (init_field (List.length h)) fts
                (h ++ [RecordValue (RecordType oid name fts) ∅]))
      as [[[]|e] h'] eqn:Hrun.
    + rewrite (bind_Ok _ _ _ _ _ Hrun). cbn.
      destruct Hloop as (Hd & Hp & props & Hthis & Hdom & Hchildren).
      * intros n. cbn. rewrite lookup_empty, elem_of_nil. split; [intros [? ?]|]; easy.
      * intros i n ft Hi. discriminate.
      * split_and!; auto. econstructor; eauto. intros i n ft Hi Hlast.
        destruct (Hchildren i n ft Hi Hlast) as (c & Hc & Hdef). exists c.
        split; [exact Hc|]. eapply default_at_lower; [|exact Hdef]. lia.
    + rewrite (bind_Throw _ _ _ _ _ Hrun). apply Hloop.
      * intros n. cbn. rewrite lookup_empty, elem_of_nil. split; [intros [? ?]|]; easy.
      * intros i n ft Hi. discriminate.
  - destruct vs as [|first rest]; cbn [makeDefaultValue defaultable].
    { cbn. split_and!; auto. apply preserves_from_refl. }
    set (type := EitherType oid name (first :: rest)).
    set (h1 := h ++ [EitherValue type (v_tag first) ∅]).
    rewrite (bind_Ok _ _ h (List.length h) h1) by reflexivity.
    apply Forall_cons in IH as [IHfirst _].
    destruct (v_recordtype first) as [recordtype|] eqn:Hrec; cbn in IHfirst.
    + specialize (IHfirst h1).
      destruct (makeDefaultValue recordtype h1) as [[c|e] h2] eqn:Hc.
      * destruct IHfirst as (Hd & -> & Hp & Hdef).
        assert (Hthis : h2 !! List.length h = Some (EitherValue type (v_tag first) ∅))
          by (apply (Hp (List.length h)); [lia|apply lookup_alloc]).
        pose proof (lookup_lt_Some _ _ _ Hthis) as Hlt.
        assert (Hlen1 : List.length h1 = S (List.length h))
          by (unfold h1; rewrite length_app; cbn; lia).
        rewrite (bind_Ok _ _ h1 tt
                   (<[List.length h := EitherValue type (v_tag first)
                                         (<[tag_name (v_tag first) := List.length h1]> ∅)]> h2)).
        2: { rewrite (bind_Ok _ _ _ _ _ Hc). unfold set_prop. now rewrite Hthis. }
        cbn. split_and!; auto.
        -- intros k o _ Hk. pose proof (lookup_lt_Some _ _ _ Hk).
           rewrite list_lookup_insert_ne by lia. apply (Hp k); [lia|].
           now apply lookup_app_l_Some.
        -- eapply default_either_record; eauto.
           ++ rewrite insert_empty. now apply list_lookup_insert_eq.
           ++ apply (default_at_lower (List.length h1)); [lia|].
              apply (default_at_preserved (List.length h1) recordtype h2).
              ** apply preserves_from_insert. lia.
              ** exact Hdef.
      * destruct IHfirst as (Hd & -> & Hp).
        rewrite (bind_Throw _ _ h1 TypeError h2)
          by now rewrite (bind_Throw _ _ _ _ _ Hc).
        split_and!; auto.
        eapply preserves_from_trans; [apply preserves_alloc|exact Hp].
    + cbn. split_and!; [reflexivity|reflexivity|apply preserves_alloc|].
      apply default_either_enum; [lia|exact Hrec|apply lookup_alloc].
  - cbn [makeDefaultValue defaultable].
    set (type := ArrayType oid name vt it).
    set (h1 := h ++ [ArrayValue type []]).
    rewrite (bind_Ok _ _ h (List.length h) h1) by reflexivity.
    assert (Hlen1 : List.length h1 = S (List.length h))
      by (unfold h1; rewrite length_app; cbn; lia).
    pose proof (replicateM_defaults vt IHv (array_length it) h1) as Hloop.
    destruct (replicateM (array_length it) (makeDefaultValue vt) h1)
      as [[items|e] h2] eqn:Hrun.
    + destruct Hloop as (Hd & Hlen & Hp & Hall).
      assert (Hthis : h2 !! List.length h = Some (ArrayValue type []))
        by (apply (Hp (List.length h)); [lia|apply lookup_alloc]).
      pose proof (lookup_lt_Some _ _ _ Hthis) as Hlt.
      rewrite (bind_Ok _ _ _ _ _ Hrun).
      rewrite (bind_Ok _ _ h2 tt (<[List.length h := ArrayValue type items]> h2))
        by (unfold set_items; now rewrite Hthis).
      cbn. split_and!; auto.
      * intros k o _ Hk. pose proof (lookup_lt_Some _ _ _ Hk).
        rewrite list_lookup_insert_ne by lia. apply (Hp k); [lia|].
        now apply lookup_app_l_Some.
      * econstructor; eauto; [now apply list_lookup_insert_eq|].
        eapply Forall_impl; [exact Hall|]. intros c Hdef.
        apply (default_at_lower (List.length h1)); [lia|].
        apply (default_at_preserved (List.length h1) vt h2); [|exact Hdef].
        apply preserves_from_insert. lia.
    + destruct Hloop as (Hd & -> & Hp).
      rewrite (bind_Throw _ _ _ _ _ Hrun). split_and!; auto.
      eapply preserves_from_trans; [apply preserves_alloc|exact Hp].
Qed.

Lemma array_length_range oid name low high :
  Z.of_nat (array_length (RangeType oid name low high)) = Z.max 0 (high - low + 1).
Proof. cbn. lia. Qed.

(** ** Claims about default values *)

(** C5 (as the code has it).  On a type with names apart from [reserved]
    and arrays below [2^32] elements, [type.makeDefaultValue()] returns
    exactly when the type is [defaultable], and otherwise raises a TypeError
    (an either-type without variants is reached).  What it returns is a new
    object, every object that existed being left as it was, and that object
    is a default value of the type ([default_at]): a range value holding
    [low]; an either value whose tag is the tag of the first variant, with a
    new default nested value exactly when that variant has a nested type; an
    array value with [array_length indextype] children, each a new default
    of the element type, that is [max 0 (high - low + 1)] children for a
    range index type and none for an index type that is not a range; a
    record value with one property per distinct field name, holding a new
    default of the type of the last field declared with that name. *)
Theorem C5_makeDefaultValue_is_default type h :
  plain type = true ->
  allocatable type = true ->
  match makeDefaultValue type h with
  | (Ok l, h') =>
      defaultable type = true
      /\ l = List.length h
      /\ preserves h h'
      /\ default_at (List.length h) h' type l
  | (Throw e, h') =>
      defaultable type = false /\ e = TypeError /\ preserves h h'
  end
  /\ (forall oid name low high,
        high - low + 1 < 2 ^ 32 ->
        Z.of_nat (array_length (RangeType oid name low high)) = Z.max 0 (high - low + 1))
  /\ (forall indextype, type_low indextype = None -> array_length indextype = 0%nat).
Proof.
  intros _ _.
  split; [apply makeDefaultValue_makes_default|].
  split; [intros oid name low high _; apply array_length_range|].
  intros indextype H. unfold array_length. now rewrite H.
Qed.

(** C5, witness: the default value of [type R: either { B { x: 0..1 } }]
    in the empty heap is the either value at [0], with the record at [1]
    and the range value at [2]. *)
Lemma C5_default_of_R :
  defaultable typeR = true
  /\ default_at 0 (makeDefaultValue typeR []).2 typeR (List.length (@nil Obj)).
Proof.
  pose proof (proj1 (C5_makeDefaultValue_is_default typeR [] eq_refl eq_refl)) as H.
  remember (makeDefaultValue typeR []) as r eqn:Hr. vm_compute in Hr. subst r.
  destruct H as (Hd & _ & _ & Hat). split; [exact Hd|exact Hat].
Defined.

(** C5, counterexample.  An array indexed by [5..3] has no child, where
    [high - low + 1] is [-1]; a record that declares [x] twice has one
    child, not two, a default of the second declaration; an either-type
    without variants has no default value. *)
Lemma C5_defaults_off_the_claim :
  (default_of (DGeneric "Array" [DRange 0 1] (DRange 5 3))
   = Some (Ok 0%nat,
           [ArrayValue (ArrayType 0 None (RangeType 1 None 0 1) (RangeType 2 None 5 3)) []])
   /\ 3 - 5 + 1 = -1)
  /\ (exists type props,
         default_of (DRecord [("x", DRange 0 1); ("x", DRange 3 4)])
         = Some (Ok 0%nat, [RecordValue type props;
                            RangeValue (RangeType 1 None 0 1) 0;
                            RangeValue (RangeType 2 None 3 4) 3])
         /\ props !! "x" = Some 2%nat /\ size props = 1%nat)
  /\ makeDefaultValue (EitherType 0 None []) [] = (Throw TypeError, []).
Proof.
  split_and!; try reflexivity.
  eexists _, _. split_and!; reflexivity.
Qed.

(** ** Claims about the children of records and arrays *)

Lemma default_record_props lo h oid name fieldtypes l :
  default_at lo h (RecordType oid name fieldtypes) l ->
  forall n : string,
    (n ∈ fieldtypes.*1 -> exists c, get_prop h l n = Some c /\ (lo <= c)%nat)
    /\ (n ∉ fieldtypes.*1 -> get_prop h l n = None).
Proof.
  intros Hd n. inversion Hd as [|? ? ? props ? Hlo Hl Hdom Hchildren| | |]; subst.
  unfold get_prop. rewrite Hl. split.
  - intros Hin. pose proof Hin as Hin'. apply Hdom in Hin' as [c Hc]. exists c.
    split; [exact Hc|].
    (* the last field declared with that name owns the child *)
    assert (Hlast : exists (i : nat) ft, fieldtypes !! i = Some (n, ft)
                                 /\ n ∉ (drop (S i) fieldtypes).*1).
    { clear -Hin. induction fieldtypes as [|[m ft] fts IH]; [inversion Hin|].
      destruct (decide (n ∈ fts.*1)) as [Hlater|Hnot].
      - destruct (IH Hlater) as (i & ft' & Hi & Hlast). exists (S i), ft'. auto.
      - exists 0%nat, ft. cbn in Hin. apply elem_of_cons in Hin as [->|Hin]; [|easy].
        split; [reflexivity|]. cbn. now rewrite drop_0. }
    destruct Hlast as (i & ft & Hi & Hlast).
    destruct (Hchildren i n ft Hi Hlast) as (c' & Hc' & Hdc).
    assert (c' = c) by congruence. subst c'. inversion Hdc; assumption.
  - intros Hnot. destruct (props !! n) as [c|] eqn:Hc; [|reflexivity].
    exfalso. apply Hnot, Hdom. eauto.
Qed.

Lemma default_array_items lo h oid name valuetype indextype l :
  default_at lo h (ArrayType oid name valuetype indextype) l ->
  forall i : Z,
    (0 <= i < Z.of_nat (array_length indextype) ->
     exists c, get_item_at h l i = Some c /\ default_at lo h valuetype c)
    /\ (i < 0 \/ Z.of_nat (array_length indextype) <= i -> get_item_at h l i = None).
Proof.
  intros Hd i. inversion Hd as [| | | |? ? ? ? items ? Hlo Hl Hlen Hall]; subst.
  unfold get_item_at, get_item. rewrite Hl. split.
  - intros Hi. destruct (decide (i < 0)) as [|_]; [lia|].
    destruct (lookup_lt_is_Some_2 items (Z.to_nat i)) as [c Hc]; [lia|].
    exists c. split; [exact Hc|]. rewrite Forall_lookup in Hall. eauto.
  - intros Hi. destruct (decide (i < 0)) as [|Hpos]; [reflexivity|].
    apply lookup_ge_None_2. lia.
Qed.

(** C8 (as the code has it).  Neither [RecordValue] nor [ArrayValue] has a
    method [field], [at] or [assign].  The children of a default record
    value are its properties: reading the property of a declared field name
    yields the location of the child, a new object, and reading any other
    name yields [undefined], no exception being raised, unless the name is
    [inherent] to record values (the slot [type] and what the prototypes
    provide).  The children of a default array value are the elements of
    [items], at the positions [0] to [array_length indextype - 1]; reading
    [items] at any other integer yields [undefined].  What a read yields is
    the child itself: after an [assign] on a range child, the same read
    yields the same location, which now holds the assigned value.  The
    types have names apart from [reserved] and arrays below [2^32]
    elements. *)
Theorem C8_children_are_properties_and_items :
  (responds_to CRecordValue "field" = false
   /\ responds_to CRecordValue "assign" = false
   /\ responds_to CArrayValue "at" = false
   /\ responds_to CArrayValue "assign" = false)
  /\ (forall oid name fieldtypes h l h',
        plain (RecordType oid name fieldtypes) = true ->
        allocatable (RecordType oid name fieldtypes) = true ->
        makeDefaultValue (RecordType oid name fieldtypes) h = (Ok l, h') ->
        forall n : string,
          (n ∈ fieldtypes.*1 ->
           exists c, get_prop h' l n = Some c /\ (List.length h <= c)%nat)
          /\ (n ∉ fieldtypes.*1 -> n ∉ inherent CRecordValue ->
              get_prop h' l n = None))
  /\ (forall oid name valuetype indextype h l h',
        plain (ArrayType oid name valuetype indextype) = true ->
        allocatable (ArrayType oid name valuetype indextype) = true ->
        makeDefaultValue (ArrayType oid name valuetype indextype) h = (Ok l, h') ->
        forall i : Z,
          (0 <= i < Z.of_nat (array_length indextype) ->
           exists c, get_item_at h' l i = Some c
                     /\ default_at (List.length h) h' valuetype c)
          /\ (i < 0 \/ Z.of_nat (array_length indextype) <= i ->
              get_item_at h' l i = None))
  /\ (forall (h : Heap) (l : nat) (n : string) (c : nat) v h',
        n ∉ reserved ->
        get_prop h l n = Some c -> c <> l ->
        RangeValue_assign c v h = (Ok tt, h') ->
        get_prop h' l n = Some c
        /\ exists type, h' !! c = Some (RangeValue type v)).
Proof.
  split; [split_and!; reflexivity|]. split_and!.
  - intros oid name fts h l h' _ _ Hmake.
    pose proof (makeDefaultValue_makes_default (RecordType oid name fts) h) as Hspec.
    rewrite Hmake in Hspec. destruct Hspec as (_ & _ & _ & Hd).
    intros n. destruct (default_record_props _ _ _ _ _ _ Hd n) as [Hin Hout].
    split; [exact Hin|]. intros Hn _. exact (Hout Hn).
  - intros oid name vt it h l h' _ _ Hmake.
    pose proof (makeDefaultValue_makes_default (ArrayType oid name vt it) h) as Hspec.
    rewrite Hmake in Hspec. destruct Hspec as (_ & _ & _ & Hd).
    exact (default_array_items _ _ _ _ _ _ _ Hd).
  - intros h l n c v h' _ Hget Hne Hassign. unfold RangeValue_assign in Hassign.
    destruct (h !! c) as [[type value| | |]|] eqn:Hc; try discriminate.
    destruct (js_lt v (type_low type) || js_gt v (type_high type)); [discriminate|].
    inversion Hassign; subst h'; clear Hassign. split.
    + unfold get_prop in *. rewrite list_lookup_insert_ne by exact Hne. exact Hget.
    + exists type. apply list_lookup_insert_eq. eapply lookup_lt_Some; eauto.
Qed.

(** C8, counterexample.  No class of values responds to [field] or [at];
    on the default value of [record { x: 0..1 }], reading the undeclared
    name [y] yields [undefined] and raises nothing; on the default value of
    an array indexed by [5..7], whose positions 0, 1 and 2 are labelled 5, 6
    and 7, reading position [4 - 5] or [8 - 5] yields [undefined]. *)
Lemma C8_no_field_no_at :
  (responds_to CRecordValue "field" = false /\ responds_to CArrayValue "at" = false)
  /\ (exists h, default_of (DRecord [("x", DRange 0 1)]) = Some (Ok 0%nat, h)
                /\ get_prop h 0 "x" = Some 1%nat
                /\ get_prop h 0 "y" = None)
  /\ (exists h, default_of (DGeneric "Array" [DRange 0 1] (DRange 5 7)) = Some (Ok 0%nat, h)
                /\ get_item_at h 0 (5 - 5) = Some 1%nat
                /\ get_item_at h 0 (4 - 5) = None
                /\ get_item_at h 0 (8 - 5) = None).
Proof.
  split_and!; try reflexivity.
  - eexists. split_and!; reflexivity.
  - eexists. split_and!; reflexivity.
Qed.

(** ** Claims about either values *)

Lemma delete_prop_either (h : Heap) this type tag props name :
  h !! this = Some (EitherValue type tag props) ->
  delete_prop this name h
  = (Ok tt, <[this := EitherValue type tag (delete name props)]> h).
Proof. intros H. unfold delete_prop. now rewrite H. Qed.

Lemma set_tag_either (h : Heap) this type tag props tag' :
  h !! this = Some (EitherValue type tag props) ->
  set_tag this tag' h = (Ok tt, <[this := EitherValue type tag' props]> h).
Proof. intros H. unfold set_tag. now rewrite H. Qed.


(** The first two statements of both accepting branches of [assign]:
    [delete this[this.tag.name]; this.tag = tag']. *)
Lemma switch_tag (h : Heap) this type tag props tag' :
  h !! this = Some (EitherValue type tag props) ->
  bind (delete_prop this (tag_name tag)) (fun _ => set_tag this tag') h
  = (Ok tt, <[this := EitherValue type tag' (delete (tag_name tag) props)]> h).
Proof.
  intros H. pose proof (lookup_lt_Some _ _ _ H) as Hlt.
  rewrite (bind_Ok _ _ _ _ _ (delete_prop_either _ _ _ _ _ _ H)).
  erewrite set_tag_either by now apply list_lookup_insert_eq.
  now rewrite list_insert_insert_eq.
Qed.

(** [assign] of a tag of the same parent type. *)
Lemma EitherValue_assign_tag (h : Heap) this type tag props g :
  h !! this = Some (EitherValue type tag props) ->
  tag_parenttype g = tag_parenttype tag ->
  EitherValue_assign this (JTag g) h
  = (Ok tt, <[this := EitherValue type g (delete (tag_name tag) props)]> h).
Proof.
  intros Hthis Hparent. unfold EitherValue_assign.
  rewrite (bind_Ok _ _ h (Some (EitherValue type tag props)) h)
    by (unfold read; now rewrite Hthis).
  rewrite (bind_Ok _ _ h None h) by reflexivity.
  destruct (decide (tag_parenttype g = tag_parenttype tag)) as [_|]; [|easy].
  now apply switch_tag.
Qed.

(** On a default value of an either-type, [assign] of any tag of the type
    leaves the value without any property, whether the variant of the tag
    has a nested type or not. *)
Lemma assign_tag_on_default lo (h : Heap) oid name first rest l g :
  default_at lo h (EitherType oid name (first :: rest)) l ->
  tag_parenttype g = tag_parenttype (v_tag first) ->
  EitherValue_assign l (JTag g) h
  = (Ok tt, <[l := EitherValue (EitherType oid name (first :: rest)) g ∅]> h).
Proof.
  intros Hd Hparent.
  inversion Hd as [| |? ? ? ? ? Hlo Hrec Hl|? ? ? ? rt c ? Hlo Hrec Hl Hc|]; subst.
  - rewrite (EitherValue_assign_tag _ _ _ _ _ _ Hl Hparent). now rewrite delete_empty.
  - rewrite (EitherValue_assign_tag _ _ _ _ _ _ Hl Hparent).
    now rewrite delete_singleton_eq.
Qed.


Example typeT_is_made :
  (EitherType_new make [("A", None); ("B", Some (DRecord [("x", DRange 0 1)]))]
     (Some "T") w0).1 = Ok typeT.
Proof. reflexivity. Qed.

Example typeT_default_is_A :
  makeDefaultValue typeT [] = (Ok 0%nat, [EitherValue typeT tagA ∅]).
Proof. reflexivity. Qed.


Example assign_B_then_read_B :
  (EitherValue_assign 0 (JTag tagB) [EitherValue typeT tagA ∅]).1 = Ok tt
  /\ get_prop (EitherValue_assign 0 (JTag tagB) [EitherValue typeT tagA ∅]).2 0 "B" = None.
Proof. split; reflexivity. Qed.


Example two_defaults_heap :
  two_defaults !! 0%nat = Some (EitherValue typeR tagR {[ "B" := 1%nat ]})
  /\ two_defaults !! 3%nat = Some (EitherValue typeR tagR {[ "B" := 4%nat ]})
  /\ List.length two_defaults = 6%nat.
Proof. split_and!; reflexivity. Qed.




(** After [e.assign(s)], an [assign] on the field [x] of the record of [s]
    is read back through [e]. *)
Example mutation_through_s_seen_through_e :
  let h := (bind (EitherValue_assign 0 (JRef 3))
              (fun _ => RangeValue_assign 5 1) two_defaults).2 in
  get_prop h 3 "B" = Some 4%nat
  /\ get_prop h 0 "B" = Some 4%nat
  /\ get_prop h 4 "x" = Some 5%nat
  /\ h !! 5%nat = Some (RangeValue (RangeType 4 None 0 1) 1).
Proof. split_and!; reflexivity. Qed.

(** ** Further properties of Type.make *)

Lemma mapM_Throw_inv {S A B} (R : S -> S -> Prop) (f : A -> M S B) xs :
  (forall s, R s s) ->
  (forall s1 s2 s3, R s1 s2 -> R s2 s3 -> R s1 s3) ->
  (forall x s, R s (f x s).2) ->
  forall s e s',
    mapM f xs s = (Throw e, s') ->
    exists x s1, x ∈ xs /\ R s s1 /\ f x s1 = (Throw e, s').
Proof.
  intros Hrefl Htrans Hf. induction xs as [|x xs IH]; intros s e s' H.
  - discriminate.
  - cbn [mapM] in H.
    apply bind_inv in H as [(y & s1 & Hx & H)|(e' & Hx & He)].
    + apply bind_inv in H as [(ys & s2 & Hm & H)|(e' & Hm & He)]; [discriminate|].
      inversion He; subst e'. destruct (IH _ _ _ Hm) as (x' & s1' & Hin & HR & Hthrow).
      exists x', s1'. split; [now apply elem_of_cons; right|]. split; [|exact Hthrow].
      eapply Htrans; [|exact HR]. specialize (Hf x s). now rewrite Hx in Hf.
    + inversion He; subst e'. exists x, s. split; [apply elem_of_cons; now left|].
      split; [apply Hrefl|exact Hx].
Qed.

Lemma same_scope_refl w : same_scope w w.
Proof. split; reflexivity. Qed.

Lemma same_scope_trans w1 w2 w3 :
  same_scope w1 w2 -> same_scope w2 w3 -> same_scope w1 w3.
Proof. intros [? ?] [? ?]. split; congruence. Qed.

Lemma same_scope_make decl name w : same_scope w (make decl name w).2.
Proof. destruct (make_effect decl name w) as [[Hs _] _]. exact Hs. Qed.

Lemma same_scope_make_variant parenttype field w :
  same_scope w (make_variant parenttype field w).2.
Proof. destruct (make_variant_rel parenttype field w) as [Hs _]. exact Hs. Qed.

Lemma make_error_same_scope w w' err :
  same_scope w w' -> make_error (env w') err -> make_error (env w) err.
Proof.
  intros [Ht Hp]. destruct err; cbn; auto.
  now rewrite (getType_same_scope _ _ _ Ht Hp).
Qed.

Lemma make_throws_make_error decl :
  forall name w e w', make decl name w = (Throw e, w') -> make_error (env w) e.
Proof.
  induction decl as [low high|fields IH|fields IH|value|base args indexBy IHargs IHindex|kind]
    using Decl_nested_ind; intros name w e w' H.
  - discriminate.
  - rewrite make_DRecord in H.
    apply bind_inv in H as [(oid & w1 & Hfresh & H)|(e' & Hfresh & _)]; [|discriminate].
    inversion Hfresh; subst oid w1; clear Hfresh.
    apply bind_inv in H as [(fts & w2 & _ & H)|(e' & Hmap & He)]; [discriminate|].
    inversion He; subst e'; clear He.
    apply (mapM_Throw_inv (fun a b => same_scope a b)) in Hmap
      as (field & s1 & Hin & Hs & Hthrow);
      [|apply same_scope_refl|apply same_scope_trans|].
    + unfold make_field in Hthrow.
      apply bind_inv in Hthrow as [(t & s2 & _ & ?)|(e' & Hm & He)]; [discriminate|].
      inversion He; subst e'. rewrite Forall_forall in IH.
      apply (make_error_same_scope _ s1); [exact Hs|]. eapply IH; eauto.
    + intros field s. unfold make_field.
      destruct (bind_ret_effect (make field.2 None) (fun type => (field.1, type)) s) as [-> _].
      apply same_scope_make.
  - rewrite make_DEither in H.
    apply bind_inv in H as [(oid & w1 & Hfresh & H)|(e' & Hfresh & _)]; [|discriminate].
    inversion Hfresh; subst oid w1; clear Hfresh.
    apply bind_inv in H as [(vs & w2 & _ & H)|(e' & Hmap & He)]; [discriminate|].
    inversion He; subst e'; clear He.
    apply (mapM_Throw_inv (fun a b => same_scope a b)) in Hmap
      as (field & s1 & Hin & Hs & Hthrow);
      [|apply same_scope_refl|apply same_scope_trans|apply same_scope_make_variant].
    rewrite Forall_forall in IH. specialize (IH field Hin).
    unfold make_variant, EitherVariant_new in Hthrow.
    apply bind_inv in Hthrow as [(o1 & s2 & Hf1 & Hthrow)|(e' & ? & _)]; [|discriminate].
    inversion Hf1; subst o1 s2; clear Hf1.
    apply bind_inv in Hthrow as [(o2 & s3 & Hf2 & Hthrow)|(e' & ? & _)]; [|discriminate].
    inversion Hf2; subst o2 s3; clear Hf2.
    destruct field.2 as [type|]; [|discriminate]. cbn in IH.
    apply bind_inv in Hthrow as [(t & s4 & _ & ?)|(e' & Hm & He)]; [discriminate|].
    inversion He; subst e'. apply IH in Hm. cbn in Hm.
    apply (make_error_same_scope _ s1); assumption.
  - cbn in H. unfold bind, env_getType in H.
    destruct (getType (env w) value) eqn:Hget; inversion H; subst. exact Hget.
  - cbn [make] in H. destruct (decide (base = "Array")) as [->|Hne].
    2: { inversion H; subst. exact Hne. }
    apply bind_inv in H as [(oid & w1 & Hfresh & H)|(e' & Hfresh & _)]; [|discriminate].
    inversion Hfresh; subst oid w1; clear Hfresh.
    apply bind_inv in H as [(vt & w2 & Harg & H)|(e' & Harg & He)].
    + apply bind_inv in H as [(it & w3 & _ & ?)|(e' & Hidx & He)]; [discriminate|].
      inversion He; subst e'. apply IHindex in Hidx.
      apply (make_error_same_scope _ w2); [|exact Hidx].
      destruct args as [|arg args]; [discriminate|].
      pose proof (same_scope_make arg None (mkWorld (env w) (S (next w)))) as Hs.
      rewrite Harg in Hs. exact Hs.
    + inversion He; subst e'. destruct args as [|arg args].
      * inversion Harg; subst. exact I.
      * apply Forall_cons in IHargs as [IHarg _]. apply IHarg in Harg. exact Harg.
  - inversion H; subst. exact I.
Qed.

(** X1.  On a declaration that reaches no declaration of the kind [either]
    (there [make] is the [Type.make] of the loader module, line by line),
    [Type.make] returns exactly when the declaration is [resolvable] in the
    environment; when it throws, the error is one of its own three or the
    TypeError of a generic without argument, and an UnknownType names an
    alias that the chain does not bind. *)
Theorem make_returns_iff_resolvable decl name w :
  either_free decl = true ->
  match make decl name w with
  | (Ok _, _) => resolvable (env w) decl = true
  | (Throw e, _) => resolvable (env w) decl = false /\ make_error (env w) e
  end.
Proof.
  intros _.
  pose proof (make_ok_resolvable decl name w) as Hok.
  destruct (make decl name w) as [[t|e] w'] eqn:H; cbn in Hok; [now symmetry|].
  split; [now symmetry|]. eapply make_throws_make_error; eauto.
Qed.

(** X1, witness: [record { x: 0..1, y: Nat }] where nothing binds [Nat]. *)
Lemma record_with_unbound_alias_is_not_made :
  resolvable env0 (DRecord [("x", DRange 0 1); ("y", DAlias "Nat")]) = false
  /\ make_error env0 (UnknownType "Nat").
Proof.
  exact (make_returns_iff_resolvable (DRecord [("x", DRange 0 1); ("y", DAlias "Nat")])
           None w0 eq_refl).
Defined.

Lemma binds_tags_only_refl e : binds_tags_only e e.
Proof. split; auto. Qed.

Lemma binds_tags_only_trans e1 e2 e3 :
  binds_tags_only e1 e2 -> binds_tags_only e2 e3 -> binds_tags_only e1 e3.
Proof.
  intros [Hk1 Ht1] [Hk2 Ht2]. split; [auto|].
  intros id v H. destruct (Ht2 id v H) as [H2|Hnew]; [|now right]. auto.
Qed.

Lemma binds_tags_only_assign id g e :
  tag_name g = id -> binds_tags_only e (assignVar id (JTag g) e).
Proof.
  intros Hname. destruct e as [ts vs p]. split; cbn.
  - intros id' H. rewrite lookup_insert_is_Some. destruct (decide (id = id')); auto.
  - intros id' v H. destruct (decide (id = id')) as [<-|Hne].
    + rewrite lookup_insert_eq in H. inversion H; subst. right. eauto.
    + rewrite lookup_insert_ne in H by exact Hne. now left.
Qed.

Lemma make_binds_tags_only decl :
  forall name w, binds_tags_only (env w) (env (make decl name w).2).
Proof.
  induction decl as [low high|fields IH|fields IH|value|base args indexBy IHargs IHindex|kind]
    using Decl_nested_ind; intros name w.
  - apply binds_tags_only_refl.
  - rewrite make_DRecord.
    rewrite (bind_Ok _ _ w (next w) (fresh w).2) by reflexivity.
    destruct (bind_ret_effect (mapM make_field fields) (RecordType (next w) name) (fresh w).2)
      as [-> _].
    change (env w) with (env (fresh w).2) at 1.
    apply (mapM_rel (fun a b => binds_tags_only (env a) (env b)));
      [intros; apply binds_tags_only_refl
      |intros ? ? ?; apply binds_tags_only_trans|].
    eapply Forall_impl; [exact IH|]. cbn beta. intros field Hfield s.
    unfold make_field.
    destruct (bind_ret_effect (make field.2 None) (fun type => (field.1, type)) s) as [-> _].
    apply Hfield.
  - rewrite make_DEither.
    rewrite (bind_Ok _ _ w (next w) (fresh w).2) by reflexivity.
    destruct (bind_ret_effect (mapM (make_variant (next w)) fields)
                (EitherType (next w) name) (fresh w).2) as [-> _].
    change (env w) with (env (fresh w).2) at 1.
    apply (mapM_rel (fun a b => binds_tags_only (env a) (env b)));
      [intros; apply binds_tags_only_refl
      |intros ? ? ?; apply binds_tags_only_trans|].
    eapply Forall_impl; [exact IH|]. cbn beta. intros [n [type|]] Hfield s;
      unfold make_variant, EitherVariant_new; cbn [fst snd] in *.
    + rewrite (bind_Ok _ _ s (next s) (fresh s).2) by reflexivity.
      rewrite (bind_Ok _ _ (fresh s).2 (S (next s)) (fresh (fresh s).2).2) by reflexivity.
      match goal with |- context [bind (make type None) ?k] =>
        destruct (bind_ret_effect (make type None)
                    (fun recordtype => mkVariant (next s) n (next w)
                       (mkTag (S (next s)) (next s) (next w) n) (Some recordtype))
                    (fresh (fresh s).2).2) as [-> _]
      end.
      apply (Hfield None (fresh (fresh s).2).2).
    + cbn. now apply binds_tags_only_assign.
  - cbn. unfold bind, env_getType. destruct (getType (env w) value); apply binds_tags_only_refl.
  - cbn [make]. destruct (decide (base = "Array")) as [_|_]; [|apply binds_tags_only_refl].
    rewrite (bind_Ok _ _ w (next w) (fresh w).2) by reflexivity.
    destruct args as [|arg args]; [apply binds_tags_only_refl|].
    apply Forall_cons in IHargs as [IHarg _]. specialize (IHarg None (fresh w).2).
    change (env (fresh w).2) with (env w) in IHarg.
    destruct (make arg None (fresh w).2) as [[vt|err] w2] eqn:Harg; cbn [snd] in IHarg.
    + rewrite (bind_Ok _ _ _ _ _ Harg).
      destruct (bind_ret_effect (make indexBy None) (ArrayType (next w) name vt) w2) as [-> _].
      eapply binds_tags_only_trans; [exact IHarg|apply IHindex].
    + rewrite (bind_Throw _ _ _ _ _ Harg). exact IHarg.
  - apply binds_tags_only_refl.
Qed.

(** X2.  Whether it returns or throws, [Type.make] leaves the type bindings
    and the parent chain of the environment as they were, unbinds no
    variable, and binds anew or again only names of enum variants that the
    declaration reaches, each to a tag that carries the name; identities are
    only ever added. *)
Theorem make_only_binds_enum_tags decl name w :
  same_scope w (make decl name w).2
  /\ (next w <= next (make decl name w).2)%nat
  /\ binds_tags_only (env w) (env (make decl name w).2)
  /\ forall id : string,
      id ∉ binders decl ->
      env_vars (env (make decl name w).2) !! id = env_vars (env w) !! id.
Proof.
  destruct (make_effect decl name w) as [(Hs & Hn & Hframe) _].
  split_and!; auto using make_binds_tags_only.
Qed.

(** A variable bound to a value is silently bound again to a tag when a
    later [new EitherType] has an enum variant of that name. *)
Example enum_variant_takes_over_a_variable :
  let e := assignVar "A" (JRef 0) env0 in
  getVar (env (EitherType_new make [("A", None)] None (mkWorld e 0)).2) "A"
  = Some (JTag (mkTag 2 1 0 "A")).
Proof. reflexivity. Qed.

(** X3.  In an either-type that [new EitherType] builds, [equals] on the
    tags of two variants holds exactly when they are the same variant of the
    list: two variants declared under one name have tags that are not
    equal.  This holds for every [makeType] that takes no identity back
    (objects are only ever created). *)
Theorem tags_equal_iff_same_variant makeType fields name w t w' :
  (forall decl name' w1, (next w1 <= next (makeType decl name' w1).2)%nat) ->
  EitherType_new makeType fields name w = (Ok t, w') ->
  exists variants,
    t = EitherType (next w) name variants
    /\ List.length variants = List.length fields
    /\ forall (i j : nat) vi vj,
        variants !! i = Some vi -> variants !! j = Some vj ->
        (EitherTag_equals (v_tag vi) (v_tag vj) = true <-> i = j).
Proof.
  intros Hnext Hnew. apply EitherType_new_inv in Hnew as (variants & -> & Hrun).
  exists variants. split; [reflexivity|].
  pose proof (variants_shape _ _ _ _ _ _ Hrun) as Hshape.
  split; [symmetry; eapply Forall2_length; exact Hshape|].
  destruct (variants_oids makeType Hnext _ _ _ _ _ Hrun) as [_ Hoids].
  intros i j vi vj Hi Hj.
  assert (Htag : forall (k : nat) v, variants !! k = Some v -> tag_type (v_tag v) = v_oid v).
  { intros k v Hk. destruct (Forall2_lookup_r _ _ _ _ _ Hshape Hk) as (f & _ & Hv).
    apply Hv. }
  unfold EitherTag_equals. rewrite (Htag i vi Hi), (Htag j vj Hj). split.
  - intros Heq. apply andb_true_iff in Heq as [Heq _]. apply Nat.eqb_eq in Heq.
    destruct (Nat.lt_trichotomy i j) as [Hlt|[->|Hgt]]; [|reflexivity|].
    + destruct (Hoids i vi Hi) as [_ Hlater]. specialize (Hlater j vj Hlt Hj). lia.
    + destruct (Hoids j vj Hj) as [_ Hlater]. specialize (Hlater i vi Hgt Hi). lia.
  - intros ->. assert (vi = vj) by congruence. subst vj.
    rewrite Nat.eqb_refl. cbn. now apply bool_decide_eq_true.
Qed.

(** X3, witness: [either { A, A }], with the dispatch [make] as
    [makeType]; the two tags named [A] are not equal. *)
Lemma tags_of_two_A_differ :
  exists variants,
    EitherType 0 None [mkVariant 1 "A" 0 (mkTag 2 1 0 "A") None;
                       mkVariant 3 "A" 0 (mkTag 4 3 0 "A") None]
    = EitherType (next w0) None variants
    /\ List.length variants = 2%nat
    /\ forall (i j : nat) vi vj,
        variants !! i = Some vi -> variants !! j = Some vj ->
        (EitherTag_equals (v_tag vi) (v_tag vj) = true <-> i = j).
Proof.
  apply (tags_equal_iff_same_variant make [("A", None); ("A", None)] None w0 _
           (mkWorld (mkEnv ∅ (<["A" := JTag (mkTag 4 3 0 "A")]> ∅) None) 5) make_next).
  reflexivity.
Defined.

(** ** Further properties of range values *)

Lemma RangeValue_assign_step (h : Heap) this oid name low high cur v :
  h !! this = Some (RangeValue (RangeType oid name low high) cur) ->
  (RangeValue_assign this v h).2
  = <[this := RangeValue (RangeType oid name low high)
               (if bool_decide (low <= v <= high) then v else cur)]> h.
Proof.
  intros Hthis. unfold RangeValue_assign. rewrite Hthis. cbn.
  destruct (v <? low) eqn:Hlt; [apply Z.ltb_lt in Hlt|apply Z.ltb_ge in Hlt]; cbn.
  - rewrite bool_decide_eq_false_2 by lia. now rewrite list_insert_id.
  - destruct (v >? high) eqn:Hgt; rewrite Z.gtb_ltb in Hgt;
      [apply Z.ltb_lt in Hgt|apply Z.ltb_ge in Hgt]; cbn.
    + rewrite bool_decide_eq_false_2 by lia. now rewrite list_insert_id.
    + now rewrite bool_decide_eq_true_2 by lia.
Qed.

(** X4.  After any sequence of [assign] attempts on a range value, the value
    stored is the last attempted value that lies within the bounds, or the
    value stored before when there is none; the attempts out of the bounds
    leave no trace and no other object changes.  Hence a value within the
    bounds stays within the bounds. *)
Theorem last_assign_in_bounds_wins (h : Heap) this oid name low high cur vs :
  h !! this = Some (RangeValue (RangeType oid name low high) cur) ->
  let final := default cur (last (filter (fun v => low <= v <= high) vs)) in
  attempts this vs h !! this = Some (RangeValue (RangeType oid name low high) final)
  /\ (forall l, l <> this -> attempts this vs h !! l = h !! l)
  /\ (low <= cur <= high -> low <= final <= high).
Proof.
  intros Hthis. cbn zeta. revert h cur Hthis.
  induction vs as [|v vs IH]; intros h cur Hthis.
  - cbn. auto.
  - unfold attempts. cbn [foldl]. fold (attempts this vs (RangeValue_assign this v h).2).
    rewrite (RangeValue_assign_step _ _ _ _ _ _ _ _ Hthis).
    pose proof (lookup_lt_Some _ _ _ Hthis) as Hlt.
    set (cur' := if bool_decide (low <= v <= high) then v else cur).
    destruct (IH (<[this := RangeValue (RangeType oid name low high) cur']> h) cur')
      as (Hfinal & Hframe & Hbounds); [now apply list_lookup_insert_eq|].
    assert (Hlast : default cur (last (filter (fun v => low <= v <= high) (v :: vs)))
                    = default cur' (last (filter (fun v => low <= v <= high) vs))).
    { rewrite filter_cons. unfold cur'. case_decide as Hv.
      - rewrite bool_decide_eq_true_2 by exact Hv. rewrite last_cons.
        now destruct (last (filter (fun v => low <= v <= high) vs)).
      - now rewrite bool_decide_eq_false_2 by exact Hv. }
    rewrite Hlast. split_and!.
    + exact Hfinal.
    + intros l Hl. rewrite (Hframe l Hl). now apply list_lookup_insert_ne.
    + intros Hcur. apply Hbounds. unfold cur'. case_bool_decide; assumption.
Qed.

(** X4, witness: [Digit] holding 5; the attempts 10, 7, -1 leave 7. *)
Lemma digit_attempts_10_7_minus1 :
  attempts 0 [10; 7; -1] [RangeValue (RangeType 0 (Some "Digit") 0 9) 5] !! 0%nat
  = Some (RangeValue (RangeType 0 (Some "Digit") 0 9) 7).
Proof.
  exact (proj1 (last_assign_in_bounds_wins
                  [RangeValue (RangeType 0 (Some "Digit") 0 9) 5] 0 0 (Some "Digit")
                  0 9 5 [10; 7; -1] eq_refl)).
Defined.

(** ** Further properties of default values *)

(** The elements that [Array.from] collects are new objects, each later
    than the one before. *)
Lemma replicateM_locations valuetype n :
  forall h items h',
    replicateM n (makeDefaultValue valuetype) h = (Ok items, h') ->
    (List.length h <= List.length h')%nat
    /\ Forall (fun c => (List.length h <= c < List.length h')%nat) items
    /\ NoDup items.
Proof.
  induction n as [|n IH]; intros h items h' H.
  - inversion H; subst. split_and!; [lia|constructor|constructor].
  - cbn [replicateM] in H.
    apply bind_inv in H as [(c & h1 & Hc & H)|(e & _ & He)]; [|discriminate].
    apply bind_inv in H as [(rest & h2 & Hrest & H)|(e & _ & He)]; [|discriminate].
    inversion H; subst; clear H.
    pose proof (makeDefaultValue_makes_default valuetype h) as Hspec.
    rewrite Hc in Hspec. destruct Hspec as (_ & -> & _ & Hd).
    assert (Hgrow : (List.length h < List.length h1)%nat).
    { inversion Hd; subst; eapply lookup_lt_Some; eassumption. }
    destruct (IH _ _ _ Hrest) as (Hlen & Hall & Hnodup). split_and!.
    + lia.
    + constructor; [lia|]. eapply Forall_impl; [exact Hall|]. cbn. lia.
    + constructor; [|exact Hnodup]. intros Hin.
      rewrite Forall_forall in Hall. apply Hall in Hin. lia.
Qed.

(** X5.  The slots of a default array value are pairwise distinct new
    objects, none of them the array itself: an [assign] on the range value
    of one slot, whether it returns or throws, changes no other slot and
    not the array. *)
Theorem array_slots_are_separate oid name valuetype indextype h l h' :
  makeDefaultValue (ArrayType oid name valuetype indextype) h = (Ok l, h') ->
  exists items,
    h' !! l = Some (ArrayValue (ArrayType oid name valuetype indextype) items)
    /\ NoDup items
    /\ Forall (fun c => (l < c)%nat) items
    /\ forall (i j : nat) ci cj v,
        items !! i = Some ci -> items !! j = Some cj -> i <> j ->
        (RangeValue_assign ci v h').2 !! cj = h' !! cj
        /\ (RangeValue_assign ci v h').2 !! l = h' !! l.
Proof.
  intros H. cbn [makeDefaultValue] in H.
  set (type := ArrayType oid name valuetype indextype) in *.
  apply bind_inv in H as [(this & h1 & Halloc & H)|(e & _ & He)]; [|discriminate].
  inversion Halloc; subst this h1; clear Halloc.
  apply bind_inv in H as [(items & h2 & Hrun & H)|(e & _ & He)]; [|discriminate].
  destruct (replicateM_locations _ _ _ _ _ Hrun) as (Hlen & Hall & Hnodup).
  rewrite length_app in Hlen, Hall. cbn in Hlen, Hall.
  unfold bind, set_items in H.
  destruct (h2 !! List.length h) as [[| | |type' items']|] eqn:Hthis; try discriminate.
  inversion H; subst l h'; clear H.
  assert (Hlt : (List.length h < List.length h2)%nat) by lia.
  assert (type' = type).
  { pose proof (replicateM_defaults valuetype (makeDefaultValue_makes_default valuetype)
                  (array_length indextype) (h ++ [ArrayValue type []])) as Hspec.
    rewrite Hrun in Hspec. destruct Hspec as (_ & _ & Hp & _).
    pose proof (Hp (List.length h) _ ltac:(lia) (lookup_alloc _ _)) as Hsame.
    congruence. }
  subst type'. exists items. split_and!.
  - now apply list_lookup_insert_eq.
  - exact Hnodup.
  - eapply Forall_impl; [exact Hall|]. cbn. lia.
  - intros i j ci cj v Hi Hj Hij.
    assert (ci <> cj).
    { intros ->. apply Hij. eapply NoDup_lookup; eauto. }
    assert (ci <> List.length h).
    { rewrite Forall_lookup in Hall. specialize (Hall i ci Hi). cbn in Hall. lia. }
    unfold RangeValue_assign.
    destruct (_ !! ci) as [[t c| | |]|]; cbn; auto.
    destruct (js_lt v (type_low t) || js_gt v (type_high t)); cbn; auto.
    split; now apply list_lookup_insert_ne.
Qed.

(** X5, witness: the default value of an array indexed by [5..7]. *)
Lemma array_5_7_slots_are_separate :
  exists items,
    [ArrayValue (ArrayType 0 None (RangeType 1 None 0 1) (RangeType 2 None 5 7)) [1; 2; 3]%nat;
     RangeValue (RangeType 1 None 0 1) 0; RangeValue (RangeType 1 None 0 1) 0;
     RangeValue (RangeType 1 None 0 1) 0] !! 0%nat
    = Some (ArrayValue (ArrayType 0 None (RangeType 1 None 0 1) (RangeType 2 None 5 7)) items)
    /\ NoDup items.
Proof.
  destruct (array_slots_are_separate 0 None (RangeType 1 None 0 1) (RangeType 2 None 5 7)
              [] 0%nat _ eq_refl) as (items & Hl & Hnodup & _).
  exists items. split; assumption.
Defined.

(** ** Further properties of either values *)



(** X7.  The constant that an enum variant leaves in the environment can be
    assigned to the default value of its either-type.  For an either-type
    that [new EitherType] builds, with names apart from [reserved] and
    arrays below [2^32] elements, and for an enum variant whose name no
    later field assigns again: the environment binds the name to a tag, and
    [assign] of that tag on a default value of the type returns and leaves
    the value with that tag and without any property; the value then
    [equals] itself.  [makeType] is any function that keeps to the names
    [assigns] and leaves the type bindings and the parent chain alone. *)
Theorem enum_constant_can_be_assigned makeType assigns fields name w t w' h l h1
    (i : nat) id :
  (forall decl name' w1, make_rel (assigns decl) w1 (makeType decl name' w1).2) ->
  EitherType_new makeType fields name w = (Ok t, w') ->
  plain t = true ->
  allocatable t = true ->
  makeDefaultValue t h = (Ok l, h1) ->
  fields !! i = Some (id, None) ->
  id ∉ flat_map (variant_assigns assigns) (drop (S i) fields) ->
  exists g,
    getVar (env w') id = Some (JTag g)
    /\ tag_name g = id
    /\ EitherValue_assign l (JTag g) h1 = (Ok tt, <[l := EitherValue t g ∅]> h1)
    /\ EitherValue_equals l (JRef l) (<[l := EitherValue t g ∅]> h1)
       = (Ok true, <[l := EitherValue t g ∅]> h1).
Proof.
  intros Hframe Hnew _ _ Hdefault Hfield Hlast.
  apply EitherType_new_inv in Hnew as (variants & -> & Hrun).
  pose proof (variants_shape _ _ _ _ _ _ Hrun) as Hshape.
  pose proof (variants_bound makeType assigns Hframe _ _ _ _ _ Hrun) as Hbound.
  destruct (Forall2_lookup_l _ _ _ _ _ Hshape Hfield) as (v & Hv & Hof).
  destruct Hof as (_ & _ & Hname & _ & Hparent & _). cbn [fst] in Hname.
  specialize (Hbound i (id, None) v Hfield Hv eq_refl Hlast). cbn [fst snd] in Hbound.
  pose proof (makeDefaultValue_makes_default (EitherType (next w) name variants) h) as Hspec.
  rewrite Hdefault in Hspec. destruct Hspec as (_ & _ & _ & Hd).
  destruct variants as [|first rest]; [inversion Hd|].
  assert (Hfirst : tag_parenttype (v_tag first) = next w).
  { destruct fields as [|f fs]; [inversion Hshape|].
    apply Forall2_cons in Hshape as [(_ & _ & _ & _ & Hp & _) _]. exact Hp. }
  exists (v_tag v). split_and!.
  - cbn. destruct (env w') as [ts vs p]. cbn in *. now rewrite Hbound.
  - exact Hname.
  - eapply assign_tag_on_default; [exact Hd|congruence].
  - assert (Hlt : (l < List.length h1)%nat)
      by (inversion Hd; subst; eapply lookup_lt_Some; eassumption).
    unfold EitherValue_equals.
    rewrite (bind_Ok _ _ _ (Some (EitherValue (EitherType (next w) name (first :: rest))
                                    (v_tag v) ∅)) (<[l := _]> h1))
      by (unfold read; now rewrite list_lookup_insert_eq).
    rewrite (bind_Ok _ _ _ (Some (EitherValue (EitherType (next w) name (first :: rest))
                                    (v_tag v) ∅)) (<[l := _]> h1))
      by (unfold read; now rewrite list_lookup_insert_eq).
    rewrite !Nat.eqb_refl. cbn. now rewrite lookup_empty.
Qed.

(** X7, witness: [type Boolean: either { False, True }] and [True], with
    the dispatch [make] as [makeType]. *)
Lemma Boolean_True_can_be_assigned :
  exists g,
    getVar (env (EitherType_new make [("False", None); ("True", None)]
                   (Some "Boolean") w0).2) "True"
    = Some (JTag g)
    /\ tag_name g = "True".
Proof.
  destruct (enum_constant_can_be_assigned make binders [("False", None); ("True", None)]
              (Some "Boolean") w0 _ _ [] 0%nat _ 1%nat "True"
              make_frame eq_refl eq_refl eq_refl eq_refl eq_refl
              ltac:(cbn; apply not_elem_of_nil))
    as (g & Hg & Hname & _).
  exists g. split; assumption.
Defined.

(** ** Rendering *)

Lemma last_occurrence {A} (n : string) (l : list (string * A)) :
  n ∈ l.*1 ->
  exists (i : nat) a, l !! i = Some (n, a) /\ n ∉ (drop (S i) l).*1.
Proof.
  induction l as [|[m a] l IH]; intros Hin; [inversion Hin|].
  destruct (decide (n ∈ l.*1)) as [Hlater|Hnot].
  - destruct (IH Hlater) as (i & a' & Hi & Hlast). exists (S i), a'. auto.
  - exists 0%nat, a. cbn in Hin. apply elem_of_cons in Hin as [->|Hin]; [|easy].
    split; [reflexivity|]. cbn. now rewrite drop_0.
Qed.

Lemma last_field_None {A} (n : string) (l : list (string * A)) :
  n ∉ l.*1 -> last_field n l = None.
Proof.
  induction l as [|[m a] l IH]; intros Hn; [reflexivity|]. cbn in *.
  apply not_elem_of_cons in Hn as [Hne Hn]. rewrite (IH Hn).
  destruct (decide (m = n)); congruence.
Qed.

Lemma last_field_lookup {A} (n : string) (l : list (string * A)) (i : nat) a :
  l !! i = Some (n, a) -> n ∉ (drop (S i) l).*1 -> last_field n l = Some a.
Proof.
  revert i. induction l as [|[m b] l IH]; intros i Hi Hlast; [discriminate|].
  destruct i as [|i]; cbn in Hi, Hlast |- *.
  - inversion Hi; subst. rewrite drop_0 in Hlast. rewrite (last_field_None _ _ Hlast).
    now destruct (decide (n = n)).
  - now rewrite (IH i Hi Hlast).
Qed.

Lemma names_of_shown {A B} (g : A -> B) (l : list (string * A)) (k : nat) :
  (drop k (map (fun ft : string * A => (ft.1, g ft.2)) l)).*1 = (drop k l).*1.
Proof.
  revert k. induction l as [|x l IH]; intros [|k]; cbn; try reflexivity.
  - f_equal. apply (IH 0%nat).
  - apply IH.
Qed.

Lemma collect_map {A} (F : A -> option (Result string)) (G : A -> Result string) xs :
  (forall x, x ∈ xs -> F x = Some (G x)) ->
  collect (map F xs) = Some (all_results (map G xs)).
Proof.
  induction xs as [|x xs IH]; intros H; [reflexivity|]. cbn.
  rewrite (H x) by (apply elem_of_cons; now left).
  rewrite IH by (intros y Hy; apply H, elem_of_cons; now right).
  destruct (G x); [|reflexivity]. now destruct (all_results (map G xs)).
Qed.

Lemma collect_imap_Ok (label : nat -> string) (R : nat -> option (Result string))
    (s : string) items :
  (forall v, v ∈ items -> R v = Some (Ok s)) ->
  forall k : nat,
    collect (imap (fun (i : nat) (v : nat) =>
                     match R v with
                     | Some (Ok s) => Some (Ok (label (k + i)%nat +:+ ": " +:+ s))
                     | other => other
                     end) items)
    = Some (Ok (map (fun i : nat => label i +:+ ": " +:+ s) (seq k (List.length items)))).
Proof.
  induction items as [|v items IH]; intros H k; [reflexivity|].
  cbn [imap collect List.length seq map].
  rewrite (H v) by (apply elem_of_cons; now left). rewrite Nat.add_0_r.
  specialize (IH (fun y Hy => H y (proj2 (elem_of_cons _ _ _) (or_intror Hy))) (S k)).
  erewrite imap_ext; [rewrite IH; reflexivity|].
  intros i y _. cbn. now rewrite Nat.add_succ_r.
Qed.

Lemma collect_imap_Throw (label : nat -> string) (R : nat -> option (Result string))
    e v items :
  R v = Some (Throw e) ->
  collect (imap (fun (i : nat) (v : nat) =>
                   match R v with
                   | Some (Ok s) => Some (Ok (label i +:+ ": " +:+ s))
                   | other => other
                   end) (v :: items))
  = Some (Throw e).
Proof. intros H. cbn. now rewrite H. Qed.

Lemma le_foldr_max (x : nat) (l : list nat) : x ∈ l -> (x <= foldr Nat.max O l)%nat.
Proof.
  induction l as [|y l IH]; intros H; [inversion H|]. cbn.
  apply elem_of_cons in H as [->|H]; [lia|]. specialize (IH H). lia.
Qed.

Lemma render_default_at lo h type :
  forall l inner fuel,
    default_at lo h type l ->
    (depth type < fuel)%nat ->
    render fuel h inner l = Some (show_default type inner).
Proof.
  induction type as [oid name low high|oid name fts IH|oid name vs IH
                    |oid name vt it IHv _] using Ty_nested_ind;
    intros l inner fuel Hd Hfuel; (destruct fuel as [|fuel]; [lia|]);
    inversion Hd; subst; cbn [render show_default].
  - match goal with Hl : h !! l = Some _ |- _ => rewrite Hl end. cbn.
    destruct inner; [reflexivity|]. now destruct name.
  - match goal with Hl : h !! l = Some _ |- _ => rewrite Hl end.
    match goal with
    | Hc : forall (i : nat) n ft, _ -> _ -> exists c, _ |- _ => rename Hc into Hchildren
    end.
    rewrite (collect_map _
               (fun v : string =>
                  match last_field v (map (fun ft : string * Ty =>
                                             (ft.1, show_default ft.2 false)) fts) with
                  | Some (Ok rhs) => Ok (v +:+ ": " +:+ rhs)
                  | Some (Throw e) => Throw e
                  | None => Throw TypeError
                  end)).
    2: { intros n Hn. destruct (last_occurrence n fts Hn) as (i & ft & Hi & Hlast).
         destruct (Hchildren i n ft Hi Hlast) as (c & Hc & Hdc). rewrite Hc.
         rewrite Forall_lookup in IH. specialize (IH i (n, ft) Hi). cbn in IH.
         rewrite (IH c false fuel Hdc).
         2: { cbn [depth] in Hfuel.
              assert (depth ft <= foldr Nat.max 0%nat
                                    (map (fun ft : string * Ty => depth ft.2) fts))%nat.
              { apply le_foldr_max. apply list_elem_of_In, in_map_iff.
                exists (n, ft). split; [reflexivity|].
                apply list_elem_of_In. eapply list_elem_of_lookup_2; eauto. }
              lia. }
         erewrite (last_field_lookup n (map (fun ft : string * Ty =>
                                               (ft.1, show_default ft.2 false)) fts) i).
         - instantiate (1 := show_default ft false).
           destruct (show_default ft false); reflexivity.
         - rewrite list_lookup_fmap, Hi. reflexivity.
         - now rewrite (names_of_shown (fun t : Ty => show_default t false)). }
    destruct (all_results _); [|reflexivity]. now destruct inner.
  - match goal with Hl : h !! l = Some _ |- _ => rewrite Hl end.
    rewrite lookup_empty.
    match goal with Hr : v_recordtype _ = None |- _ => rewrite Hr end. reflexivity.
  - match goal with Hl : h !! l = Some _ |- _ => rewrite Hl end.
    rewrite lookup_singleton_eq.
    apply Forall_cons in IH as [IHfirst _].
    match goal with Hr : v_recordtype _ = Some _ |- _ => rewrite Hr in IHfirst |- * end.
    cbn in IHfirst.
    assert (Hdepth : (depth recordtype < fuel)%nat).
    { cbn [depth map foldr] in Hfuel.
      match goal with Hr : v_recordtype _ = Some _ |- _ => rewrite Hr in Hfuel end. lia. }
    destruct inner.
    + now rewrite (IHfirst c false fuel) by assumption.
    + rewrite (IHfirst c true fuel) by assumption.
      now destruct (show_default recordtype true).
  - match goal with Hl : h !! l = Some _ |- _ => rewrite Hl end.
    destruct inner; [reflexivity|].
    match goal with
    | Hlen : List.length items = _, Hall : Forall _ items |- _ =>
        rename Hlen into Hlength; rename Hall into Hitems
    end.
    assert (Heach : forall v, v ∈ items -> render fuel h false v = Some (show_default vt false)).
    { intros v Hv. rewrite Forall_forall in Hitems. apply IHv; [auto|].
      cbn [depth] in Hfuel. lia. }
    rewrite <- Hlength. destruct (show_default vt false) as [s|e] eqn:Hshow.
    + pose proof (collect_imap_Ok (slot_label it) (render fuel h false) s items Heach 0)
        as Hcollect.
      cbn [Nat.add] in Hcollect. rewrite Hcollect.
      destruct items as [|v items]; reflexivity.
    + destruct items as [|v items]; [reflexivity|].
      rewrite (collect_imap_Throw (slot_label it) (render fuel h false) e v items);
        [reflexivity|].
      apply Heach, elem_of_cons. now left.
Qed.

(** X8.  On the value that [makeDefaultValue] returns for a type with
    names apart from [reserved], bounds that are safe integers and arrays
    below [2^32] elements, [toString] and [innerToString] return once the
    fuel exceeds the nesting of the type, and what they return is read off
    the type alone ([show_default]): the text, or the TypeError of an
    [innerToString] that reaches an array. *)
Theorem default_value_renders_as_its_type type h l h' inner fuel :
  plain type = true ->
  safe type = true ->
  allocatable type = true ->
  makeDefaultValue type h = (Ok l, h') ->
  (depth type < fuel)%nat ->
  render fuel h' inner l = Some (show_default type inner).
Proof.
  intros _ _ _ Hmake Hfuel.
  pose proof (makeDefaultValue_makes_default type h) as Hspec.
  rewrite Hmake in Hspec. destruct Hspec as (_ & _ & _ & Hd).
  eapply render_default_at; eauto.
Qed.

(** X8, witness: the default value of an array of [0..1] indexed by
    [5..7]. *)
Lemma array_5_7_renders :
  render 2
    [ArrayValue (ArrayType 0 None (RangeType 1 None 0 1) (RangeType 2 None 5 7)) [1; 2; 3]%nat;
     RangeValue (RangeType 1 None 0 1) 0; RangeValue (RangeType 1 None 0 1) 0;
     RangeValue (RangeType 1 None 0 1) 0] false 0
  = Some (show_default (ArrayType 0 None (RangeType 1 None 0 1) (RangeType 2 None 5 7)) false).
Proof.
  apply (default_value_renders_as_its_type
           (ArrayType 0 None (RangeType 1 None 0 1) (RangeType 2 None 5 7)) [] 0%nat _
           false 2 eq_refl eq_refl eq_refl eq_refl).
  cbn. lia.
Defined.

Example array_5_7_text :
  show_default (ArrayType 0 None (RangeType 1 None 0 1) (RangeType 2 None 5 7)) false
  = Ok "[5: 0, 6: 0, 7: 0]".
Proof. reflexivity. Qed.

(** An anonymous record shows [undefined] where a named one shows its
    name. *)
Example anonymous_record_text :
  show_default (RecordType 0 None [("x", RangeType 1 (Some "Digit") 0 9)]) false
  = Ok "undefined { x: Digit(0) }".
Proof. reflexivity. Qed.

Lemma append_inv_head (s a b : string) : s +:+ a = s +:+ b -> a = b.
Proof. induction s as [|c s IH]; cbn; intros H; [exact H|]. inversion H. auto. Qed.

Lemma append_inv_last (a b : string) (c : Ascii.ascii) :
  a +:+ String c EmptyString = b +:+ String c EmptyString -> a = b.
Proof.
  revert b. induction a as [|x a IH]; intros [|y b] H; cbn in H.
  - reflexivity.
  - inversion H as [[Hc Hb]]. destruct b; discriminate.
  - inversion H as [[Hc Ha]]. destruct a; discriminate.
  - inversion H as [[Hc Ha]]. f_equal. now apply IH.
Qed.

(** X9.  The text of a range value tells its value: among the range values
    of one type, [toString] returns equal texts exactly for equal values,
    and so does [innerToString]. *)
Theorem range_text_tells_the_value (h h' : Heap) l l' type v v' inner fuel fuel' :
  h !! l = Some (RangeValue type v) ->
  h' !! l' = Some (RangeValue type v') ->
  (0 < fuel)%nat -> (0 < fuel')%nat ->
  (render fuel h inner l = render fuel' h' inner l' <-> v = v').
Proof.
  intros Hl Hl' Hfuel Hfuel'.
  destruct fuel as [|fuel]; [lia|]. destruct fuel' as [|fuel']; [lia|].
  cbn [render]. rewrite Hl, Hl'. split.
  - intros H.
    assert (Hpretty : pretty v = pretty v').
    { destruct inner; [now inversion H|].
      destruct (getName type) as [name|]; [|now inversion H].
      inversion H as [Htext]. apply append_inv_head in Htext.
      apply (append_inv_head "(") in Htext. now apply append_inv_last in Htext. }
    now apply (inj pretty).
  - now intros ->.
Qed.

(** X9, witness: [Digit(5)] and [Digit(7)]. *)
Lemma Digit_5_is_not_Digit_7 :
  render 1 [RangeValue (RangeType 0 (Some "Digit") 0 9) 5] false 0
  = render 1 [RangeValue (RangeType 0 (Some "Digit") 0 9) 7] false 0
  <-> 5 = 7.
Proof.
  apply (range_text_tells_the_value
           [RangeValue (RangeType 0 (Some "Digit") 0 9) 5]
           [RangeValue (RangeType 0 (Some "Digit") 0 9) 7]
           0%nat 0%nat (RangeType 0 (Some "Digit") 0 9) 5 7 false 1 1
           eq_refl eq_refl); lia.
Defined.

(** ** Code.format *)

Section AstInd.
Variable P : Ast -> Prop.
Hypothesis Hsequence : forall statements, Forall P statements -> P (ASequence statements).
Hypothesis Hifelse : forall c t e, P c -> P t -> P e -> P (AIfElse c t e).
Hypothesis Hmatches : forall a b, P a -> P b -> P (AMatches a b).
Hypothesis Hassign : forall a b, P a -> P b -> P (AAssign a b).
Hypothesis Hrecordvalue : forall type fields,
    Forall (fun f : string * Ast => P f.2) fields -> P (ARecordValue type fields).
Hypothesis Hlookup : forall a b, P a -> P b -> P (ALookup a b).
Hypothesis Hindex : forall a b, P a -> P b -> P (AIndex a b).
Hypothesis Hid : forall value, P (AId value).
Hypothesis Halias : forall value, P (AAlias value).
Hypothesis Hnumber : forall value, P (ANumber value).
Hypothesis Happly : forall func args, Forall P args -> P (AApply func args).
Hypothesis Hvardecl : forall id type default,
    P type -> from_option P True default -> P (AVarDecl id type default).
Hypothesis Hother : forall kind, P (AOther kind).

Fixpoint Ast_nested_ind (ast : Ast) : P ast :=
  match ast with
  | ASequence statements =>
      Hsequence statements
        ((fix go (l : list Ast) : Forall P l :=
            match l with
            | [] => List.Forall_nil _
            | a :: l' => List.Forall_cons _ a l' (Ast_nested_ind a) (go l')
            end) statements)
  | AIfElse c t e => Hifelse c t e (Ast_nested_ind c) (Ast_nested_ind t) (Ast_nested_ind e)
  | AMatches a b => Hmatches a b (Ast_nested_ind a) (Ast_nested_ind b)
  | AAssign a b => Hassign a b (Ast_nested_ind a) (Ast_nested_ind b)
  | ARecordValue type fields =>
      Hrecordvalue type fields
        ((fix go (l : list (string * Ast)) : Forall (fun f => P f.2) l :=
            match l with
            | [] => List.Forall_nil _
            | f :: l' => List.Forall_cons _ f l' (Ast_nested_ind f.2) (go l')
            end) fields)
  | ALookup a b => Hlookup a b (Ast_nested_ind a) (Ast_nested_ind b)
  | AIndex a b => Hindex a b (Ast_nested_ind a) (Ast_nested_ind b)
  | AId value => Hid value
  | AAlias value => Halias value
  | ANumber value => Hnumber value
  | AApply func args =>
      Happly func args
        ((fix go (l : list Ast) : Forall P l :=
            match l with
            | [] => List.Forall_nil _
            | a :: l' => List.Forall_cons _ a l' (Ast_nested_ind a) (go l')
            end) args)
  | AVarDecl id type default =>
      Hvardecl id type default (Ast_nested_ind type)
        (match default as o return from_option P True o with
         | Some d => Ast_nested_ind d
         | None => I
         end)
  | AOther kind => Hother kind
  end.
End AstInd.

Lemma wbind_dumps {A B} (m : W A) (k : A -> W B) :
  (wbind m k).1 = m.1 ++ (k m.2).1.
Proof. unfold wbind. destruct m as [d a]. cbn. now destruct (k a). Qed.

Lemma wmap_dumps {A B} (f : A -> W B) xs :
  (wmap f xs).1 = flat_map (fun x => (f x).1) xs.
Proof.
  induction xs as [|x xs IH]; [reflexivity|]. cbn [wmap flat_map].
  rewrite wbind_dumps, wbind_dumps, IH. cbn. now rewrite app_nil_r.
Qed.

Lemma dumps_unknown_app (d1 d2 : list Ast) (b1 b2 : bool) :
  Forall is_other d1 /\ (d1 = [] <-> b1 = true) ->
  Forall is_other d2 /\ (d2 = [] <-> b2 = true) ->
  Forall is_other (d1 ++ d2) /\ (d1 ++ d2 = [] <-> b1 && b2 = true).
Proof.
  intros [H1 E1] [H2 E2]. split; [apply Forall_app; auto|].
  rewrite andb_true_iff, <- E1, <- E2. split.
  - intros H. now apply app_eq_nil in H.
  - intros [-> ->]. reflexivity.
Qed.

Lemma dumps_unknown_list {A} (f : A -> W string) (k : A -> bool) xs :
  Forall (fun x => Forall is_other (f x).1 /\ ((f x).1 = [] <-> k x = true)) xs ->
  Forall is_other (wmap f xs).1 /\ ((wmap f xs).1 = [] <-> forallb k xs = true).
Proof.
  rewrite wmap_dumps. induction 1 as [|x xs Hx _ IH]; cbn.
  - split; [constructor|]. tauto.
  - now apply dumps_unknown_app.
Qed.

Lemma dumps_unknown_nil (b : bool) :
  b = true -> Forall is_other [] /\ (@nil Ast = [] <-> b = true).
Proof. intros ->. split; [constructor|tauto]. Qed.

(** X10.  [Code.format] dumps on the console nodes of the kinds it does not
    know and nothing else, and it dumps nothing exactly when every node of
    the tree is of a kind it knows. *)
Theorem format_dumps_exactly_unknown_kinds ast :
  Forall is_other (format ast).1 /\ ((format ast).1 = [] <-> known ast = true).
Proof.
  induction ast as [statements IH|c t e IHc IHt IHe|a b IHa IHb|a b IHa IHb
                   |type fields IH|a b IHa IHb|a b IHa IHb|value|value|value
                   |func args IH|id type default IHtype IHdefault|kind]
    using Ast_nested_ind; cbn [format known].
  - rewrite wbind_dumps. cbn. rewrite app_nil_r.
    now apply (dumps_unknown_list format known).
  - rewrite !wbind_dumps. cbn. rewrite app_nil_r, app_assoc.
    apply dumps_unknown_app; [apply dumps_unknown_app|]; assumption.
  - rewrite !wbind_dumps. cbn. rewrite app_nil_r. now apply dumps_unknown_app.
  - rewrite !wbind_dumps. cbn. rewrite app_nil_r. now apply dumps_unknown_app.
  - rewrite wbind_dumps. cbn. rewrite app_nil_r.
    apply (dumps_unknown_list _ (fun f : string * Ast => known f.2)).
    eapply Forall_impl; [exact IH|]. cbn beta. intros f Hf.
    rewrite wbind_dumps. cbn. now rewrite app_nil_r.
  - rewrite !wbind_dumps. cbn. rewrite app_nil_r. now apply dumps_unknown_app.
  - rewrite !wbind_dumps. cbn. rewrite app_nil_r. now apply dumps_unknown_app.
  - now apply dumps_unknown_nil.
  - now apply dumps_unknown_nil.
  - now apply dumps_unknown_nil.
  - rewrite wbind_dumps. cbn. rewrite app_nil_r.
    now apply (dumps_unknown_list format known).
  - rewrite !wbind_dumps. cbn [fst snd wret]. rewrite app_nil_r.
    rewrite andb_comm. apply dumps_unknown_app; [|assumption].
    destruct default as [d|]; cbn in IHdefault |- *.
    + rewrite wbind_dumps. cbn. now rewrite app_nil_r.
    + now apply dumps_unknown_nil.
  - split; [constructor; [now exists kind|constructor]|]. split; discriminate.
Qed.

(** [var x : 0..9;] in the body of a rule: the type is a node of a kind that
    [format] does not know, so it is dumped and shown as its kind. *)
Example vardecl_with_a_range_type :
  format (AVarDecl "x" (AOther "range") (Some (ANumber 3)))
  = ([AOther "range"], "var x : range = 3;").
Proof. reflexivity. Qed.

(** ** load *)

Lemma RangeValue_assign_result (h : Heap) this oid name low high cur v :
  h !! this = Some (RangeValue (RangeType oid name low high) cur) ->
  RangeValue_assign this v h
  = if bool_decide (low <= v <= high)
    then (Ok tt, <[this := RangeValue (RangeType oid name low high) v]> h)
    else (Throw (OutOfRange v name low high), h).
Proof.
  intros Hthis. unfold RangeValue_assign. rewrite Hthis. cbn.
  destruct (v <? low) eqn:Hlt; [apply Z.ltb_lt in Hlt|apply Z.ltb_ge in Hlt]; cbn.
  - now rewrite bool_decide_eq_false_2 by lia.
  - destruct (v >? high) eqn:Hgt; rewrite Z.gtb_ltb in Hgt;
      [apply Z.ltb_lt in Hgt|apply Z.ltb_ge in Hgt]; cbn.
    + now rewrite bool_decide_eq_false_2 by lia.
    + now rewrite bool_decide_eq_true_2 by lia.
Qed.

Lemma EitherValue_assign_number (h : Heap) this type tag props z :
  h !! this = Some (EitherValue type tag props) ->
  EitherValue_assign this (JNumber z) h = (Throw (TypeMismatch (getName type)), h).
Proof.
  intros Hthis. unfold EitherValue_assign.
  rewrite (bind_Ok _ _ h (Some (EitherValue type tag props)) h)
    by (unfold read; now rewrite Hthis).
  reflexivity.
Qed.

(** [value.assign(z)] changes no object but [value]. *)
Lemma Value_assign_frame (h : Heap) this z (k : nat) :
  k <> this -> (Value_assign this z h).2 !! k = h !! k.
Proof.
  intros Hk. unfold Value_assign.
  destruct (h !! this) as [[type cur|type props|type tag props|type items]|] eqn:Hthis;
    try reflexivity.
  - unfold RangeValue_assign. rewrite Hthis.
    destruct (js_lt z (type_low type) || js_gt z (type_high type)); cbn; [reflexivity|].
    now apply list_lookup_insert_ne.
  - now rewrite (EitherValue_assign_number _ _ _ _ _ _ Hthis).
Qed.

Lemma Value_assign_length (h : Heap) this z :
  List.length (Value_assign this z h).2 = List.length h.
Proof.
  unfold Value_assign.
  destruct (h !! this) as [[type cur|type props|type tag props|type items]|] eqn:Hthis;
    try reflexivity.
  - unfold RangeValue_assign. rewrite Hthis.
    destruct (js_lt z (type_low type) || js_gt z (type_high type)); cbn; [reflexivity|].
    apply length_insert.
  - now rewrite (EitherValue_assign_number _ _ _ _ _ _ Hthis).
Qed.

(** X11.  A declaration of a variable or parameter with a number as default
    that [load] accepts has a range type, and the number lies within its
    bounds: the variable is bound to a new range value that holds the
    number.  For a record, an array or an either-type the declaration is
    never accepted. *)
Theorem declared_default_is_in_bounds decl id type z s s' :
  decl = vardecl id type (Some z) \/ decl = paramdecl id type (Some z) ->
  load_decl decl s = (None, s') ->
  env_vars (env (world s')) !! id = Some (JRef (List.length (heap s)))
  /\ exists oid name low high,
      heap s' !! List.length (heap s) = Some (RangeValue (RangeType oid name low high) z)
      /\ low <= z <= high.
Proof.
  intros Hdecl Hload.
  assert (Hvalue : exists required l s1,
             declare_value type (Some z) required s = (Ok l, s1)
             /\ s' = mkSession (mkWorld (assignVar id (JRef l) (env (world s1)))
                                  (next (world s1)))
                       (heap s1) (console s1)).
  { destruct Hdecl as [-> | ->]; cbn [load_decl] in Hload.
    - exists false.
      destruct (declare_value type (Some z) false s) as [[l|e] s1]; inversion Hload; eauto.
    - exists true.
      destruct (declare_value type (Some z) true s) as [[l|e] s1]; inversion Hload; eauto. }
  destruct Hvalue as (required & l & s1 & Hvalue & ->). clear Hload Hdecl.
  unfold declare_value in Hvalue.
  destruct (make type None (world s)) as [[t|e] w]; [|discriminate].
  pose proof (makeDefaultValue_makes_default t (heap s)) as Hspec.
  destruct (makeDefaultValue t (heap s)) as [[value|e] h1]; [|discriminate].
  destruct Hspec as (_ & -> & _ & Hd).
  destruct (Value_assign (List.length (heap s)) z h1) as [[[]|e] h2] eqn:Hassign;
    [|discriminate].
  inversion Hvalue; subst l s1; clear Hvalue. cbn [world heap env].
  split; [destruct (env w) as [ts vs p]; cbn; apply lookup_insert_eq|].
  unfold Value_assign in Hassign.
  inversion Hd as [? ? low high ? _ Hl|? ? ? ? ? _ Hl|? ? ? ? ? _ _ Hl
                  |? ? ? ? ? ? ? _ _ Hl|? ? ? ? ? ? _ Hl]; subst;
    rewrite Hl in Hassign; try discriminate.
  - rewrite (RangeValue_assign_result _ _ _ _ _ _ _ _ Hl) in Hassign.
    case_bool_decide as Hz; [|discriminate]. inversion Hassign; subst h2.
    exists oid, name, low, high. split; [|exact Hz].
    apply list_lookup_insert_eq. eapply lookup_lt_Some; eauto.
  - now rewrite (EitherValue_assign_number _ _ _ _ _ _ Hl) in Hassign.
  - now rewrite (EitherValue_assign_number _ _ _ _ _ _ Hl) in Hassign.
Qed.

(** X11, witness: [var d : 0..9 = 5;] in the empty session. *)
Lemma var_d_holds_5 :
  env_vars (env (world (load_decl (vardecl "d" (DRange 0 9) (Some 5)) session0).2)) !! "d"
  = Some (JRef (List.length (heap session0)))
  /\ exists oid name low high,
      heap (load_decl (vardecl "d" (DRange 0 9) (Some 5)) session0).2
        !! List.length (heap session0)
      = Some (RangeValue (RangeType oid name low high) 5)
      /\ low <= 5 <= high.
Proof.
  apply (declared_default_is_in_bounds (vardecl "d" (DRange 0 9) (Some 5)) "d"
           (DRange 0 9) 5 session0).
  - left. reflexivity.
  - reflexivity.
Defined.

(** X12.  [var id : T = z;] for a name [T] that the environment binds to a
    range type: when [z] lies within the bounds, the declaration is
    accepted, a new range value holding [z] is bound to [id] and the load
    goes on; otherwise the load ends there with OutOfRange, [id] is not
    bound, the declarations that follow are not run, and all that is left
    is the default value that was built. *)
Theorem range_variable_is_checked id T z rest s oid name low high :
  getType (env (world s)) T = Some (RangeType oid name low high) ->
  load_all (vardecl id (DAlias T) (Some z) :: rest) s
  = if bool_decide (low <= z <= high)
    then load_all rest
           (mkSession (mkWorld (assignVar id (JRef (List.length (heap s))) (env (world s)))
                         (next (world s)))
              (heap s ++ [RangeValue (RangeType oid name low high) z]) (console s))
    else (Some (Raised (OutOfRange z name low high)),
          mkSession (world s) (heap s ++ [RangeValue (RangeType oid name low high) low])
            (console s)).
Proof.
  intros Hget. cbn [load_all load_decl]. unfold declare_value. cbn [make].
  unfold bind at 1, env_getType. rewrite Hget. cbn [ret makeDefaultValue alloc].
  set (T' := RangeType oid name low high).
  unfold Value_assign. rewrite lookup_alloc.
  rewrite (RangeValue_assign_result _ _ oid name low high low z (lookup_alloc _ _)).
  destruct s as [w h out]. cbn [world heap console].
  case_bool_decide; [|destruct w; reflexivity].
  rewrite (insert_app_r_alt h _ (List.length h)) by lia.
  rewrite Nat.sub_diag. destruct w. reflexivity.
Qed.

(** X12, witness: [type Digit: 0..9] is registered; [var d : Digit = 10;]
    ends the load. *)
Lemma var_d_of_Digit_rejects_10 :
  load_all [vardecl "d" (DAlias "Digit") (Some 10); vardecl "e" (DAlias "Digit") None]
    (load_decl (typedecl "Digit" (DRange 0 9)) session0).2
  = (Some (Raised (OutOfRange 10 (Some "Digit") 0 9)),
     mkSession (world (load_decl (typedecl "Digit" (DRange 0 9)) session0).2)
       [RangeValue (RangeType 0 (Some "Digit") 0 9) 0] []).
Proof.
  exact (range_variable_is_checked "d" "Digit" 10
           [vardecl "e" (DAlias "Digit") None]
           (load_decl (typedecl "Digit" (DRange 0 9)) session0).2
           0%nat (Some "Digit") 0 9 eq_refl).
Defined.

Lemma session_grows_refl s : session_grows s s.
Proof.
  unfold session_grows. split_and!; auto.
  - apply preserves_from_refl.
  - exists []. now rewrite app_nil_r.
Qed.

Lemma session_grows_trans s1 s2 s3 :
  session_grows s1 s2 -> session_grows s2 s3 -> session_grows s1 s3.
Proof.
  intros (Hh & Hp & Ht & Hv & Hn & out & Ho) (Hh' & Hp' & Ht' & Hv' & Hn' & out' & Ho').
  unfold session_grows. split_and!; auto.
  - eapply preserves_from_trans; eassumption.
  - congruence.
  - lia.
  - exists (out ++ out'). rewrite Ho', Ho. now rewrite app_assoc.
Qed.

(** What [Type.make] does to a session. *)
Lemma session_grows_make decl name s :
  session_grows s (mkSession (make decl name (world s)).2 (heap s) (console s)).
Proof.
  destruct (make_effect decl name (world s)) as [([Ht Hp] & Hn & _) _].
  destruct (make_binds_tags_only decl name (world s)) as [Hkeep _].
  unfold session_grows. cbn [world heap console].
  split_and!; auto.
  - apply preserves_from_refl.
  - intros id. now rewrite Ht.
  - exists []. now rewrite app_nil_r.
Qed.

Lemma declare_value_grows type default required s :
  session_grows s (declare_value type default required s).2.
Proof.
  unfold declare_value.
  pose proof (session_grows_make type None s) as Hmake.
  destruct (make type None (world s)) as [[t|e] w]; cbn [snd] in Hmake |- *;
    [|exact Hmake].
  pose proof (makeDefaultValue_makes_default t (heap s)) as Hspec.
  destruct (makeDefaultValue t (heap s)) as [[l|e] h1].
  - destruct Hspec as (_ & -> & Hp & _).
    assert (Hstep : forall h2,
               preserves (heap s) h2 ->
               session_grows s (mkSession w h2 (console s))).
    { intros h2 Hh2. destruct Hmake as (_ & Hrest). split; assumption. }
    destruct default as [z|].
    + pose proof (Value_assign_frame h1 (List.length (heap s)) z) as Hframe.
      destruct (Value_assign (List.length (heap s)) z h1) as [[[]|e] h2];
        cbn [snd] in Hframe |- *; apply Hstep;
        intros k o _ Hk; pose proof (lookup_lt_Some _ _ _ Hk);
        (rewrite Hframe by lia); apply (Hp k); auto with lia.
    + destruct required; cbn [snd]; now apply Hstep.
  - destruct Hspec as (_ & _ & Hp). cbn [snd].
    destruct Hmake as (_ & Hrest). split; assumption.
Qed.

Lemma session_grows_bind (s s' : Session) (e' : Environment) :
  session_grows s s' ->
  env_parent e' = env_parent (env (world s')) ->
  (forall id : string, is_Some (env_types (env (world s')) !! id) ->
                       is_Some (env_types e' !! id)) ->
  (forall id : string, is_Some (env_vars (env (world s')) !! id) ->
                       is_Some (env_vars e' !! id)) ->
  session_grows s (mkSession (mkWorld e' (next (world s'))) (heap s') (console s')).
Proof.
  intros (Hh & Hp & Ht & Hv & Hn & Hout) Hp' Ht' Hv'.
  unfold session_grows. cbn [world heap console env next].
  split_and!; auto. congruence.
Qed.

Lemma load_decl_grows decl s : session_grows s (load_decl decl s).2.
Proof.
  destruct decl as [id type|id type default|id type default|id code|id code|kind];
    cbn [load_decl].
  - pose proof (session_grows_make type (Some id) s) as Hmake.
    destruct (make type (Some id) (world s)) as [[t|e] w]; cbn [snd] in Hmake |- *;
      [|exact Hmake].
    apply (session_grows_bind s (mkSession w (heap s) (console s))); auto;
      cbn [world env]; destruct (env w) as [ts vs p]; cbn; auto.
    intros id' H. rewrite lookup_insert_is_Some. destruct (decide (id = id')); auto.
  - pose proof (declare_value_grows type default true s) as Hvalue.
    destruct (declare_value type default true s) as [[l|e] s1]; cbn [snd] in Hvalue |- *;
      [|exact Hvalue].
    apply (session_grows_bind s s1); auto; destruct (env (world s1)) as [ts vs p]; cbn; auto.
    intros id' H. rewrite lookup_insert_is_Some. destruct (decide (id = id')); auto.
  - pose proof (declare_value_grows type default false s) as Hvalue.
    destruct (declare_value type default false s) as [[l|e] s1]; cbn [snd] in Hvalue |- *;
      [|exact Hvalue].
    apply (session_grows_bind s s1); auto; destruct (env (world s1)) as [ts vs p]; cbn; auto.
    intros id' H. rewrite lookup_insert_is_Some. destruct (decide (id = id')); auto.
  - cbn. unfold print_rule. destruct (format code) as [dumps text].
    unfold session_grows. cbn. split_and!; auto; [apply preserves_from_refl|eauto].
  - cbn. unfold print_rule. destruct (format code) as [dumps text].
    unfold session_grows. cbn. split_and!; auto; [apply preserves_from_refl|eauto].
  - apply session_grows_refl.
Qed.

(** X13.  Whether it returns or throws, [load] changes no value that
    existed, leaves the parent chain of the environment as it was, unbinds
    no type and no variable, and only appends to the console. *)
Theorem load_only_adds parsed s : session_grows s (load parsed s).2.
Proof.
  unfold load. destruct (status parsed); [|apply session_grows_refl].
  generalize (value parsed) as decls. intros decls. revert s.
  induction decls as [|decl decls IH]; intros s; [apply session_grows_refl|].
  cbn [load_all]. pose proof (load_decl_grows decl s) as Hstep.
  destruct (load_decl decl s) as [[e|] s1]; cbn [snd] in Hstep |- *; [exact Hstep|].
  eapply session_grows_trans; [exact Hstep|apply IH].
Qed.

Lemma well_bound_grows s (e' : Environment) (n : nat) (h' : Heap) out :
  well_bound s ->
  binds_tags_only (env (world s)) e' ->
  (List.length (heap s) <= List.length h')%nat ->
  well_bound (mkSession (mkWorld e' n) h' out).
Proof.
  intros Hwb [_ Htags] Hlen id l H. cbn in *.
  destruct (Htags id (JRef l) H) as [Hold|(g & Hg & _)]; [|discriminate].
  specialize (Hwb id l Hold). lia.
Qed.

Lemma well_bound_assignVar s id (l : nat) :
  well_bound s ->
  (l < List.length (heap s))%nat ->
  well_bound (mkSession (mkWorld (assignVar id (JRef l) (env (world s))) (next (world s)))
                (heap s) (console s)).
Proof.
  intros Hwb Hl id' l' H. cbn in *. destruct (env (world s)) as [ts vs p] eqn:He.
  cbn in H. destruct (decide (id = id')) as [<-|Hne].
  - rewrite lookup_insert_eq in H. inversion H; subst. exact Hl.
  - rewrite lookup_insert_ne in H by exact Hne. apply (Hwb id' l').
    rewrite He. exact H.
Qed.

Lemma declare_value_well_bound type default required s :
  well_bound s ->
  well_bound (declare_value type default required s).2
  /\ forall l, (declare_value type default required s).1 = Ok l ->
       (l < List.length (heap (declare_value type default required s).2))%nat.
Proof.
  intros Hwb. unfold declare_value.
  pose proof (make_binds_tags_only type None (world s)) as Htags.
  destruct (make type None (world s)) as [[t|e] w]; cbn [snd] in Htags.
  2: { split; [|discriminate]. destruct w. eapply well_bound_grows; eauto. }
  pose proof (makeDefaultValue_makes_default t (heap s)) as Hspec.
  destruct (makeDefaultValue t (heap s)) as [[l|e] h1].
  - destruct Hspec as (_ & -> & Hp & Hd).
    pose proof (preserves_length _ _ Hp) as Hlen.
    assert (Hl : (List.length (heap s) < List.length h1)%nat)
      by (inversion Hd; subst; eapply lookup_lt_Some; eassumption).
    destruct default as [z|].
    + pose proof (Value_assign_length h1 (List.length (heap s)) z) as Hsame.
      destruct (Value_assign (List.length (heap s)) z h1) as [[[]|e] h2];
        cbn [fst snd heap] in Hsame |- *.
      * split; [destruct w; eapply well_bound_grows; eauto; lia|].
        intros l Hok. inversion Hok; subst. lia.
      * split; [destruct w; eapply well_bound_grows; eauto; lia|discriminate].
    + destruct required; cbn [fst snd heap].
      * split; [destruct w; eapply well_bound_grows; eauto|discriminate].
      * split; [destruct w; eapply well_bound_grows; eauto|].
        intros l Hok. inversion Hok; subst. exact Hl.
  - destruct Hspec as (_ & _ & Hp). pose proof (preserves_length _ _ Hp) as Hlen.
    split; [destruct w; eapply well_bound_grows; eauto|discriminate].
Qed.

Lemma load_decl_well_bound decl s : well_bound s -> well_bound (load_decl decl s).2.
Proof.
  intros Hwb.
  destruct decl as [id type|id type default|id type default|id code|id code|kind];
    cbn [load_decl].
  - pose proof (make_binds_tags_only type (Some id) (world s)) as Htags.
    destruct (make type (Some id) (world s)) as [[t|e] w]; cbn [snd] in Htags |- *.
    + eapply well_bound_grows; [exact Hwb| |reflexivity].
      destruct (env w) as [ts vs p]. exact Htags.
    + destruct w. eapply well_bound_grows; eauto.
  - destruct (declare_value_well_bound type default true s Hwb) as [Hwb1 Hl].
    destruct (declare_value type default true s) as [[l|e] s1]; cbn [fst snd] in *;
      [|exact Hwb1].
    apply well_bound_assignVar; auto.
  - destruct (declare_value_well_bound type default false s Hwb) as [Hwb1 Hl].
    destruct (declare_value type default false s) as [[l|e] s1]; cbn [fst snd] in *;
      [|exact Hwb1].
    apply well_bound_assignVar; auto.
  - cbn. unfold print_rule. destruct (format code). exact Hwb.
  - cbn. unfold print_rule. destruct (format code). exact Hwb.
  - exact Hwb.
Qed.

(** X14.  [load] leaves no variable dangling: when every variable of the
    local scope that refers to a value refers to an object of the heap, the
    same holds of the session that [load] leaves, whether it returns or
    throws. *)
Theorem load_keeps_variables_bound parsed s :
  well_bound s -> well_bound (load parsed s).2.
Proof.
  unfold load. destruct (status parsed); [|auto].
  generalize (value parsed) as decls. intros decls. revert s.
  induction decls as [|decl decls IH]; intros s Hwb; [exact Hwb|].
  cbn [load_all]. pose proof (load_decl_well_bound decl s Hwb) as Hstep.
  destruct (load_decl decl s) as [[e|] s1]; cbn [snd] in Hstep |- *; [exact Hstep|].
  now apply IH.
Qed.

(** X14, witness: the empty session and a program of two declarations. *)
Lemma loaded_Digit_is_well_bound :
  well_bound (load (mkParsed true [typedecl "Digit" (DRange 0 9);
                                   vardecl "d" (DAlias "Digit") (Some 5)]) session0).2.
Proof.
  apply (load_keeps_variables_bound
           (mkParsed true [typedecl "Digit" (DRange 0 9);
                           vardecl "d" (DAlias "Digit") (Some 5)]) session0).
  intros id l H. cbn in H. rewrite lookup_empty in H. discriminate.
Defined.

(** X15.  Loading a list of declarations in two parts, into the session that
    the first part leaves, is loading the whole list; a first part that
    throws ends the load, and the second part is not run. *)
Theorem load_all_app decls1 decls2 s :
  load_all (decls1 ++ decls2) s
  = match load_all decls1 s with
    | (None, s') => load_all decls2 s'
    | failed => failed
    end.
Proof.
  revert s. induction decls1 as [|decl decls1 IH]; intros s; [reflexivity|].
  cbn [app load_all]. destruct (load_decl decl s) as [[e|] s1]; [reflexivity|apply IH].
Qed.

(** X16.  A declaration whose type does not resolve in the environment ends
    the load with an error of [Type.make]: no type is registered, no value
    is created, nothing is printed, no variable other than the enum variants
    met before the failure is bound, and the declarations that follow are
    not run, whatever they declare. *)
Theorem unresolved_type_ends_the_load decl type rest s :
  declared_type decl = Some type ->
  resolvable (env (world s)) type = false ->
  exists e s',
    load_all (decl :: rest) s = (Some (Raised e), s')
    /\ make_error (env (world s)) e
    /\ heap s' = heap s
    /\ console s' = console s
    /\ env_types (env (world s')) = env_types (env (world s))
    /\ forall id : string,
        id ∉ binders type ->
        env_vars (env (world s')) !! id = env_vars (env (world s)) !! id.
Proof.
  intros Htype Hres.
  assert (Hmake : forall name,
             exists e w', make type name (world s) = (Throw e, w')
                          /\ make_error (env (world s)) e
                          /\ env_types (env w') = env_types (env (world s))
                          /\ forall id : string,
                              id ∉ binders type ->
                              env_vars (env w') !! id = env_vars (env (world s)) !! id).
  { intros name. pose proof (make_ok_resolvable type name (world s)) as Hok.
    rewrite Hres in Hok.
    destruct (make type name (world s)) as [[t|e] w'] eqn:Hrun; [discriminate|].
    exists e, w'. split; [reflexivity|].
    split; [eapply make_throws_make_error; eauto|].
    apply make_rel_make in Hrun as ([Ht _] & _ & Hframe). auto. }
  destruct decl as [id ty|id ty default|id ty default|id code|id code|kind];
    inversion Htype; subst ty; cbn [load_all load_decl]; unfold declare_value.
  - destruct (Hmake (Some id)) as (e & w' & -> & He & Ht & Hv).
    exists e, (mkSession w' (heap s) (console s)). cbn. split_and!; auto.
  - destruct (Hmake None) as (e & w' & -> & He & Ht & Hv).
    exists e, (mkSession w' (heap s) (console s)). cbn. split_and!; auto.
  - destruct (Hmake None) as (e & w' & -> & He & Ht & Hv).
    exists e, (mkSession w' (heap s) (console s)). cbn. split_and!; auto.
Qed.

(** X16, witness: a variable of a type declared only afterwards. *)
Lemma use_before_declaration_fails :
  exists e s',
    load_all [vardecl "d" (DAlias "Digit") (Some 5); typedecl "Digit" (DRange 0 9)] session0
    = (Some (Raised e), s')
    /\ make_error (env (world session0)) e.
Proof.
  destruct (unresolved_type_ends_the_load (vardecl "d" (DAlias "Digit") (Some 5))
              (DAlias "Digit") [typedecl "Digit" (DRange 0 9)] session0
              eq_refl eq_refl) as (e & s' & Hload & He & _).
  exists e, s'. split; assumption.
Defined.

